(** * Simulated annealing for the Euclidean TSP

    A shallow embedding of [src/main.cpp]: the cost model
    ([euclideanDistance], [totalDistance]), the segment reversal the engine
    applies with [std::reverse], the annealing loop [simulatedAnnealing], the
    two file readers ([parseTSPFile], [readSolutions]) and [main].

    Modelling choices.
    - [double] is IEEE 754 binary64, that is Rocq's primitive [float]; [+],
      [-], [*], [/], [<] and [sqrt] are the primitive operations, each rounded
      on its own (no fused multiply-add, no extended precision).  [exp] comes
      from the C library and has no counterpart here: it is a variable of the
      development, and every theorem holds for every function in its place.
    - [std::vector<int>] is [list Z]; positions in a vector are [nat].
    - Out-of-bounds accesses and the violated precondition of
      [uniform_int_distribution] are undefined behaviour in C++; the model
      makes them explicit ([None], [Undefined]).
    - The generator [gen] is an oracle: the sequence of the values it will
      deliver.  The theorems quantify over every sequence.
    - The [while] loop runs on fuel; [OutOfFuel] is all the model says of a
      run that needs more passes than it was given.
    - A file is the list of its lines; the formatted extractions from a
      line, [std::shuffle] and [fs::path::stem] are the library's and are
      variables of the development.  [std::unordered_map] is a [gmap]. *)

From Stdlib Require Import ZArith Floats Lia.
From Stdlib Require Import String Ascii.
From stdpp Require Import base option list strings gmap.

Local Open Scope Z_scope.

(** * The model *)

(** ** Machine integers *)

(** [int n = tour.size();] a [size_t] narrowed to a 32-bit [int]. *)
Definition wrap_int (z : Z) : Z := (z + 2147483648) mod 4294967296 - 2147483648.

Definition int_of_size (m : nat) : Z := wrap_int (Z.of_nat m).

(** The loop bound [n] as the number of iterations of [for (i = 0; i < n; ++i)]
    and the modulus of [(i+1) % n]: a negative [n] gives no iteration. *)
Definition size_int {A} (v : list A) : nat := Z.to_nat (int_of_size (length v)).

(** Vectors whose size an [int] holds exactly. *)
Definition fits_int {A} (v : list A) : Prop := Z.of_nat (length v) < 2147483648.

Local Close Scope Z_scope.

(** ** [std::reverse] on a vector *)

(** Line 84: [if (i > j) std::swap(i, j);] *)
Definition ordered (i j : nat) : nat * nat :=
  if j <? i then (j, i) else (i, j).

Section Reverse.
Context {A : Type}.
Implicit Types (t : list A) (first last k : nat).

(** [std::iter_swap(v.begin() + a, v.begin() + b)].  Both positions must be
    inside the vector; [simulatedAnnealing] passes no others (lemma
    [drawn_in_range]), and the model leaves the vector alone there. *)
Definition iter_swap t (a b : nat) : list A :=
  match t !! a, t !! b with
  | Some x, Some y => <[b := x]> (<[a := y]> t)
  | _, _ => t
  end.

(** The vector after the first [m] swaps of a reversal of the range
    [first, last): the swaps exchange the positions [first + k] and
    [(last - k) - 1], for [k = 0, 1, ...] in this order. *)
Definition swapped t first last (m : nat) : list A :=
  foldl (fun v k => iter_swap v (first + k) (last - k - 1)) t (seq 0 m).

(** [std::reverse(v.begin() + first, v.begin() + last)]: the half-open
    range [first, last), by [(last - first) / 2] swaps. *)
Definition std_reverse t first last : list A :=
  swapped t first last ((last - first) / 2).

(** Lines 84-86: order the two drawn positions, then reverse. *)
Definition move t (i j : nat) : list A :=
  let '(i, j) := ordered i j in
  std_reverse t i j.

End Reverse.

(** ** Cost model *)

Abbreviation double := float (only parsing).

Record City := { index : Z; x : double; y : double }.

Definition euclideanDistance (a b : City) : double :=
  let dx := (x a - x b)%float in
  let dy := (y a - y b)%float in
  PrimFloat.sqrt (dx * dx + dy * dy)%float.

(** [v[k]] for an [int] index [k]: outside the vector the access is
    undefined. *)
Definition at_int {A} (v : list A) (k : Z) : option A :=
  if (k <? 0)%Z then None else v !! Z.to_nat k.

(** One round of the loop of [totalDistance], on the accumulator. *)
Definition add_edge (tour : list Z) (cities : list City) (n : nat)
    (acc : option double) (i : nat) : option double :=
  dist ← acc;
  ti ← tour !! i;
  a ← at_int cities ti;
  tj ← tour !! ((i + 1) mod n);
  b ← at_int cities tj;
  Some (dist + euclideanDistance a b)%float.

Definition totalDistance (tour : list Z) (cities : list City) : option double :=
  let n := size_int tour in
  foldl (add_edge tour cities n) (Some 0%float) (seq 0 n).

(** ** The generator and the two distributions *)

(** What the generator delivers on one call, as each distribution reads
    it. *)
Record draw := { as_int : nat; as_real : double }.

(** [std::mt19937 gen(rd())]: the sequence of all its outputs and the number
    of those already consumed. *)
Record mt19937 := { outputs : N -> draw; position : N }.

Definition next (g : mt19937) : draw * mt19937 :=
  (outputs g (position g),
   {| outputs := outputs g; position := N.succ (position g) |}).

(** [dist(gen)] for [uniform_int_distribution<> dist(0, n-1)] with [1 <= n]:
    some position in [0, n-1]. *)
Definition dist (n : nat) (g : mt19937) : nat * mt19937 :=
  let '(d, g') := next g in (as_int d mod n, g').

(** [realDist(gen)] for [uniform_real_distribution<> realDist(0.0, 1.0)].
    The library delivers values in [0, 1); nothing below relies on it, so
    the sequence is not restricted. *)
Definition realDist (g : mt19937) : double * mt19937 :=
  let '(d, g') := next g in (as_real d, g').

(** Lines 81-82: [int i = dist(gen); int j = dist(gen);] *)
Definition drawn (n : nat) (g : mt19937) : nat * nat * mt19937 :=
  let '(i, g1) := dist n g in
  let '(j, g2) := dist n g1 in
  (i, j, g2).

(** ** The annealing engine *)

(** The local variables of [simulatedAnnealing] that the loop updates. *)
Record SearchState := {
  tour : list Z;
  currentDistance : double;
  bestTour : list Z;
  bestDistance : double;
  T : double;
  gen : mt19937
}.

(** What one pass through the loop body did (a ghost label, for stating
    properties of runs). *)
Inductive event :=
| Redraw (i : nat)
| Evaluated (i j : nat) (candidate : list Z) (newDistance : double)
            (accepted : bool).

Inductive outcome (A : Type) :=
| Finished (a : A)
| Undefined
| OutOfFuel.
Arguments Finished {A} a.
Arguments Undefined {A}.
Arguments OutOfFuel {A}.

#[local] Set Warnings "-inexact-float".

Definition initialTemperature : double := 10000%float.
Definition coolingRate : double := 0.9999%float.
Definition absoluteTemperature : double := 0.00001%float.

Section Engine.
Variable exp : double -> double.
Variable cities : list City.

(** Line 91: [delta < 0 || exp(-delta / T) > realDist(gen)].  The right
    operand is evaluated, and the generator consulted, only when the left
    one is false. *)
Definition accept (delta temperature : double) (g : mt19937)
    : bool * mt19937 :=
  if (delta <? 0)%float then (true, g)
  else
    let '(u, g') := realDist g in
    ((u <? exp (- delta / temperature))%float, g').

(** Lines 81-100: one pass through the body of the [while] loop, for
    [n = tour.size()] as computed on entry. *)
Definition body (n : nat) (s : SearchState) : option (event * SearchState) :=
  let '(i, j, g2) := drawn n (gen s) in
  if i =? j then
    Some (Redraw i,
          {| tour := tour s; currentDistance := currentDistance s;
             bestTour := bestTour s; bestDistance := bestDistance s;
             T := T s; gen := g2 |})
  else
    let '(i, j) := ordered i j in
    let tour1 := std_reverse (tour s) i j in
    newDistance ← totalDistance tour1 cities;
    let delta := (newDistance - currentDistance s)%float in
    let '(accepted, g3) := accept delta (T s) g2 in
    let T' := (T s * coolingRate)%float in
    Some (Evaluated i j tour1 newDistance accepted,
      if accepted then
        if (newDistance <? bestDistance s)%float then
          {| tour := tour1; currentDistance := newDistance;
             bestTour := tour1; bestDistance := newDistance;
             T := T'; gen := g3 |}
        else
          {| tour := tour1; currentDistance := newDistance;
             bestTour := bestTour s; bestDistance := bestDistance s;
             T := T'; gen := g3 |}
      else
        {| tour := std_reverse tour1 i j;
           currentDistance := currentDistance s;
           bestTour := bestTour s; bestDistance := bestDistance s;
           T := T'; gen := g3 |}).

(** Line 80: the loop condition [T > absoluteTemperature]. *)
Definition running (s : SearchState) : bool :=
  (absoluteTemperature <? T s)%float.

Fixpoint loop (fuel n : nat) (s : SearchState) : outcome SearchState :=
  if running s then
    match fuel with
    | 0 => OutOfFuel
    | S fuel' =>
        match body n s with
        | None => Undefined
        | Some (_, s') => loop fuel' n s'
        end
    end
  else Finished s.

(** Lines 68-78: the state on entry to the loop. *)
Definition initial (tour0 : list Z) (g : mt19937) : option SearchState :=
  d ← totalDistance tour0 cities;
  Some {| tour := tour0; currentDistance := d;
          bestTour := tour0; bestDistance := d;
          T := initialTemperature; gen := g |}.

(** The whole function.  Its result is the vector it leaves in [tour]
    (line 102).  Constructing [dist(0, n-1)] with [n - 1 < 0] violates the
    precondition of the distribution. *)
Definition simulatedAnnealing (fuel : nat) (tour0 : list Z) (g : mt19937)
    : outcome (list Z) :=
  let n := size_int tour0 in
  if n =? 0 then Undefined
  else
    match initial tour0 g with
    | None => Undefined
    | Some s0 =>
        match loop fuel n s0 with
        | Finished s => Finished (bestTour s)
        | Undefined => Undefined
        | OutOfFuel => OutOfFuel
        end
    end.

(** Runs of the loop, with the labels of the passes made so far. *)
Inductive reaches (n : nat) (s0 : SearchState)
    : list event -> SearchState -> Prop :=
| reaches_start : reaches n s0 [] s0
| reaches_pass tr s e s' :
    reaches n s0 tr s ->
    running s = true ->
    body n s = Some (e, s') ->
    reaches n s0 (tr ++ [e]) s'.

End Engine.

(** ** Running a given number of passes *)

Section Passes.
Variable exp : double -> double.
Variable cities : list City.

(** [k] passes through the body, each under the loop condition. *)
Fixpoint passes (k n : nat) (s : SearchState)
    : option (list event * SearchState) :=
  match k with
  | 0 => Some ([], s)
  | S k' =>
      if running s then
        '(e, s1) ← body exp cities n s;
        '(tr, s') ← passes k' n s1;
        Some (e :: tr, s')
      else None
  end.

(** The state on entry, then [k] passes, as in [simulatedAnnealing]. *)
Definition first_passes (k : nat) (tour0 : list Z) (g : mt19937)
    : option (list event * SearchState) :=
  s0 ← initial cities tour0 g;
  passes k (size_int tour0) s0.

End Passes.

(** ** Notions the properties are stated with *)

(** Following the specification's wording: every position of the cyclic
    order paired with its successor, the last one with the first. *)
Definition cyclic_pairs {A} (l : list A) : list (A * A) :=
  zip l (drop 1 l ++ take 1 l).

(** Following the specification's wording: the sum of [distance] over the
    consecutive pairs of the cyclic order. *)
Definition totalCost (tour : list Z) (cities : list City) : option double :=
  route ← mapM (at_int cities) tour;
  Some (foldl (fun acc e => (acc + euclideanDistance e.1 e.2)%float)
              0%float (cyclic_pairs route)).

(** What a pass that makes no move leaves behind. *)
Definition unchanged (s s' : SearchState) : Prop :=
  tour s' = tour s /\ currentDistance s' = currentDistance s /\
  bestTour s' = bestTour s /\ bestDistance s' = bestDistance s.

(** The two recorded costs are the costs of the two recorded tours. *)
Definition consistent (cities : list City) (s : SearchState) : Prop :=
  totalDistance (tour s) cities = Some (currentDistance s) /\
  totalDistance (bestTour s) cities = Some (bestDistance s).

(** The tours the engine made its current tour so far: the one it started
    from and every accepted candidate, in order. *)
Definition accepted_candidate (e : event) : option (list Z) :=
  match e with
  | Evaluated _ _ candidate _ true => Some candidate
  | _ => None
  end.

Definition committed (tour0 : list Z) (tr : list event) : list (list Z) :=
  tour0 :: omap accepted_candidate tr.

(** [bestDistance] is the cost of [bestTour], [bestTour] was committed, and
    no committed tour is cheaper. *)
Definition best_is_minimum (cities : list City) (tour0 : list Z)
    (tr : list event) (s : SearchState) : Prop :=
  bestTour s ∈ committed tour0 tr /\
  totalDistance (bestTour s) cities = Some (bestDistance s) /\
  forall t, t ∈ committed tour0 tr ->
    exists d, totalDistance t cities = Some d /\
              (d <? bestDistance s)%float = false.

(** The temperature after [k] coolings, from the temperature [t]. *)
Definition cool (k : N) (t : double) : double :=
  N.iter k (fun t' => (t' * coolingRate)%float) t.

(** The number of coolings in a run: the passes that evaluated a candidate. *)
Definition cooling (e : event) : N :=
  match e with
  | Evaluated _ _ _ _ _ => 1
  | Redraw _ => 0
  end.

Definition coolings (tr : list event) : N :=
  foldr (fun e k => (cooling e + k)%N) 0%N tr.

(** The cooling schedule on its own: the number of coolings, counted from
    [k], after which the loop condition fails for the first time. *)
Fixpoint stops_after (fuel : nat) (t : double) (k : N) : option N :=
  if (absoluteTemperature <? t)%float then
    match fuel with
    | 0 => None
    | S fuel' => stops_after fuel' (t * coolingRate)%float (N.succ k)
    end
  else Some k.

(** Binary64 values by their specification: a value that is neither a NaN
    nor below zero (a zero, a positive finite number or plus infinity). *)
Definition SFnonneg (a : spec_float) : Prop :=
  match a with
  | S754_zero _ => True
  | S754_finite s _ _ | S754_infinity s => s = false
  | S754_nan => False
  end.

Definition SFnot_nan (a : spec_float) : Prop :=
  match a with S754_nan => False | _ => True end.

(** Results of rounding carry the sign they were given. *)
Definition SFsigned (s : bool) (a : spec_float) : Prop :=
  match a with
  | S754_zero s' | S754_finite s' _ _ | S754_infinity s' => s' = s
  | S754_nan => False
  end.

(** Every city has finite coordinates, as every city read from a file has. *)
Definition finite_city (c : City) : Prop :=
  is_finite (x c) = true /\ is_finite (y c) = true.

(** ** A numerical stand-in for [exp]

    Used only to run the engine on concrete inputs: argument halving, a
    Taylor polynomial, repeated squaring.  It is exact at zero, as the C
    library's [exp] is. *)
Definition exp_model (v : double) : double :=
  if (v <? -746)%float then 0%float
  else if (710 <? v)%float then infinity
  else
    let w := (v / 4096)%float in
    let p := (1 + w * (1 + w / 2 * (1 + w / 3 * (1 + w / 4 * (1 + w / 5 *
             (1 + w / 6 * (1 + w / 7 * (1 + w / 8))))))))%float in
    Nat.iter 12 (fun q => (q * q)%float) p.

(** ** Example data

    The unit square of the specification, and a generator that delivers a
    given list of outputs over and over. *)

Definition square : list City :=
  [ {| index := 1; x := 0; y := 0 |}; {| index := 2; x := 0; y := 1 |};
    {| index := 3; x := 1; y := 1 |}; {| index := 4; x := 1; y := 0 |} ].

Definition cycling (l : list draw) : mt19937 :=
  {| outputs := fun k =>
       default {| as_int := 0; as_real := 0 |}
               (l !! N.to_nat (k mod N.of_nat (length l)));
     position := 0 |}.

Definition square_draws : list draw :=
  [ {| as_int := 1; as_real := 0.5 |}; {| as_int := 3; as_real := 0.5 |};
    {| as_int := 2; as_real := 0.5 |}; {| as_int := 2; as_real := 0.5 |};
    {| as_int := 0; as_real := 0.5 |}; {| as_int := 1; as_real := 0.5 |};
    {| as_int := 0; as_real := 0.5 |};
    {| as_int := 3; as_real := 0.5 |}; {| as_int := 0; as_real := 0.5 |};
    {| as_int := 0; as_real := 0.5 |};
    {| as_int := 1; as_real := 0.5 |}; {| as_int := 3; as_real := 0.5 |};
    {| as_int := 0; as_real := 0.99999 |} ].

Definition square_gen : mt19937 := cycling square_draws.

(** The cities of the square that a tour visits, in its order. *)
Definition square_route (positions : list nat) : list City :=
  omap (fun i => square !! i) positions.

(** The square, the tour [0; 1; 2; 3] and the draws 0 and 1. *)
Definition adjacent_state : SearchState :=
  {| tour := [0; 1; 2; 3]%Z; currentDistance := 4;
     bestTour := [0; 1; 2; 3]%Z; bestDistance := 4;
     T := initialTemperature;
     gen := cycling [ {| as_int := 0; as_real := 0.5 |};
                      {| as_int := 1; as_real := 0.5 |};
                      {| as_int := 0; as_real := 0.5 |} ] |}.

(** The square, the tour [2; 1; 0; 3], the draws 1 and 3, which propose a
    longer tour, and an acceptance draw close to 1. *)
Definition rejecting_state : SearchState :=
  {| tour := [2; 1; 0; 3]%Z; currentDistance := 4;
     bestTour := [0; 1; 2; 3]%Z; bestDistance := 4;
     T := initialTemperature;
     gen := cycling [ {| as_int := 1; as_real := 0.5 |};
                      {| as_int := 3; as_real := 0.5 |};
                      {| as_int := 0; as_real := 0.99999 |} ] |}.

(** The working tour and [bestTour] in the state the loop is left in. *)
Definition on_exit (exp : double -> double) (cities : list City)
    (fuel : nat) (tour0 : list Z) (g : mt19937) : option (list Z * list Z) :=
  if size_int tour0 =? 0 then None
  else
    s0 ← initial cities tour0 g;
    match loop exp cities fuel (size_int tour0) s0 with
    | Finished s => Some (tour s, bestTour s)
    | _ => None
    end.

(** ** The readers

    A file is the list of the lines [std::getline] delivers, [None] when it
    cannot be opened.  The extractions from one line,
    [iss >> index >> x >> y] and [iss >> filename >> colon >> optimalValue],
    are the library's: they are variables here, functions of the line. *)

(** [s.find(needle)]: the first position at which [needle] occurs in [s]. *)
Definition find (needle s : string) : option nat := String.index 0 needle s.

Section Readers.
Variable read_city : string -> option City.
Variable read_solution : string -> option (string * double).

(** Lines 34-52: the loop of [parseTSPFile], on the lines still to read. *)
Fixpoint parse_lines (node_coord_section : bool) (cities : list City)
    (lines : list string) : list City :=
  match lines with
  | [] => cities
  | line :: rest =>
      match find "NODE_COORD_SECTION" line with
      | Some _ => parse_lines true cities rest
      | None =>
          match find "EOF" line with
          | Some _ => cities
          | None =>
              if node_coord_section then
                match read_city line with
                | None => parse_lines node_coord_section cities rest
                | Some city =>
                    parse_lines node_coord_section (cities ++ [city]) rest
                end
              else parse_lines node_coord_section cities rest
          end
      end
  end.

Definition parseTSPFile (file : option (list string)) : list City :=
  match file with
  | None => []
  | Some lines => parse_lines false [] lines
  end.

(** Lines 123-126: what is left of [filename] before its first dot. *)
Definition strip_extension (filename : string) : string :=
  match find "." filename with
  | Some dotPos => substring 0 dotPos filename
  | None => filename
  end.

(** Lines 115-127: one line of the solutions file. *)
Definition add_solution (solutionsMap : gmap string double) (line : string)
    : gmap string double :=
  match read_solution line with
  | None => solutionsMap
  | Some (filename, optimalValue) =>
      <[strip_extension filename := optimalValue]> solutionsMap
  end.

Definition readSolutions (file : option (list string)) : gmap string double :=
  match file with
  | None => ∅
  | Some lines => foldl add_solution ∅ lines
  end.

End Readers.

(** ** [main], from the list of files on

    The directory listing and the two files are inputs; [std::shuffle] and
    [fs::path::stem] are the library's and are variables.  What [main]
    prints is collected in a record. *)

Record printed := {
  initial_distance : double;
  final_distance : double;
  printed_tour : list Z;
  correct_answer : option double
}.

Inductive exit :=
| Return1
| Return0 (p : printed).

(** Lines 174-177: [tour.push_back(i)] for [i] from 0 to [cities.size() - 1],
    each [size_t] narrowed to [int]. *)
Definition positions (cities : list City) : list Z :=
  (fun i => wrap_int (Z.of_nat i)) <$> seq 0 (length cities).

(** Lines 190-192: [cities[idx].index] for every [idx] of the tour. *)
Definition labels (cities : list City) (t : list Z) : option (list Z) :=
  mapM (fun idx => index <$> at_int cities idx) t.

Section Main.
Variable exp : double -> double.
Variable read_city : string -> option City.
Variable read_solution : string -> option (string * double).
Variable shuffle : list Z -> list Z.
Variable stem : string -> string.
Variable open : string -> option (list string).

(** Lines 159-207: from the selected file to the end of [main]. *)
Definition report (fuel : nat) (selectedFile : string)
    (solutions : option (list string)) (g : mt19937) : outcome exit :=
  let selectedFilename := stem selectedFile in
  let cities := parseTSPFile read_city (open selectedFile) in
  match cities with
  | [] => Finished Return1
  | _ =>
      let tour0 := shuffle (positions cities) in
      match totalDistance tour0 cities with
      | None => Undefined
      | Some initialDistance =>
          match simulatedAnnealing exp cities fuel tour0 g with
          | Finished t =>
              match totalDistance t cities, labels cities t with
              | Some finalDistance, Some ids =>
                  let solutionsMap := readSolutions read_solution solutions in
                  Finished (Return0
                    {| initial_distance := initialDistance;
                       final_distance := finalDistance;
                       printed_tour := ids;
                       correct_answer := solutionsMap !! selectedFilename |})
              | _, _ => Undefined
              end
          | Undefined => Undefined
          | OutOfFuel => OutOfFuel
          end
      end
  end.

(** Lines 136-158: the list of files, the selection and its check. *)
Definition main (fuel : nat) (tspFiles : list string) (choice : N)
    (solutions : option (list string)) (g : mt19937) : outcome exit :=
  match tspFiles with
  | [] => Finished Return1
  | _ =>
      if (choice <? 1)%N || (N.of_nat (length tspFiles) <? choice)%N
      then Finished Return1
      else
        match tspFiles !! (N.to_nat choice - 1) with
        | None => Undefined
        | Some selectedFile => report fuel selectedFile solutions g
        end
  end.

End Main.

(** ** Notions the properties of the readers are stated with *)

(** The part of a list before its first element on which [stop] holds. *)
Fixpoint before {A} (stop : A -> bool) (l : list A) : list A :=
  match l with
  | [] => []
  | a :: l' => if stop a then [] else a :: before stop l'
  end.

(** The part of a list after its first element on which [start] holds. *)
Fixpoint after {A} (start : A -> bool) (l : list A) : list A :=
  match l with
  | [] => []
  | a :: l' => if start a then l' else after start l'
  end.

(** A line that holds the word NODE_COORD_SECTION. *)
Definition section_line (line : string) : bool :=
  match find "NODE_COORD_SECTION" line with Some _ => true | None => false end.

(** A line that holds the word EOF and is not a section line. *)
Definition end_line (line : string) : bool :=
  negb (section_line line) &&
  match find "EOF" line with Some _ => true | None => false end.

Definition dotless (name : string) : Prop := find "." name = None.

(** The values that the lines of a solutions file give for [name], in the
    order of the lines. *)
Definition answers (read_solution : string -> option (string * double))
    (name : string) (lines : list string) : list double :=
  omap (fun line =>
          '(filename, optimalValue) ← read_solution line;
          if decide (strip_extension filename = name)
          then Some optimalValue else None)
       lines.

(** ** Notions the properties of complete runs are stated with *)

(** The passes of a run that drew the same position twice. *)
Definition redraw (e : event) : N :=
  match e with
  | Redraw _ => 1
  | Evaluated _ _ _ _ _ => 0
  end.

Definition redraws (tr : list event) : N :=
  foldr (fun e k => (redraw e + k)%N) 0%N tr.

(** ** Example files

    The square as a TSPLIB file and a solutions file, by their lines, with
    the extractions the library makes from these lines, a shuffle that
    exchanges the two middle positions, and file names without directory
    and with one extension, whose stem is what is left before the dot. *)

Fixpoint read_from {A} (table : list (string * A)) (line : string)
    : option A :=
  match table with
  | [] => None
  | (l, a) :: rest => if String.eqb l line then Some a else read_from rest line
  end.

Definition square_file : list string :=
  [ "NAME : square"; "TYPE : TSP"; "DIMENSION : 4";
    "EDGE_WEIGHT_TYPE : EUC_2D"; "NODE_COORD_SECTION";
    "1 0 0"; "2 0 1"; "3 1 1"; "4 1 0"; "EOF"; "5 2 2" ]%string.

Definition square_read_city : string -> option City :=
  read_from
    [ ("1 0 0", {| index := 1; x := 0; y := 0 |});
      ("2 0 1", {| index := 2; x := 0; y := 1 |});
      ("3 1 1", {| index := 3; x := 1; y := 1 |});
      ("4 1 0", {| index := 4; x := 1; y := 0 |});
      ("5 2 2", {| index := 5; x := 2; y := 2 |}) ]%string.

Definition solutions_file : list string :=
  [ "square.tsp : 5"; "optimal values"; "line : 2"; "square : 4" ]%string.

Definition read_square_solution : string -> option (string * double) :=
  read_from
    [ ("square.tsp : 5", ("square.tsp", 5%float));
      ("line : 2", ("line", 2%float));
      ("square : 4", ("square", 4%float)) ]%string.

Definition swap_middle (l : list Z) : list Z :=
  match l with
  | [a; b; c; d] => [a; c; b; d]
  | _ => l
  end.

Definition open_square (name : string) : option (list string) :=
  if String.eqb name "square.tsp" then Some square_file
  else if String.eqb name "point.tsp"
       then Some ["NODE_COORD_SECTION"; "1 0 0"; "EOF"]%string
       else None.

(** * Facts about the model *)

(** ** Machine integers *)

Lemma size_int_le {A} (v : list A) : size_int v <= length v.
Proof.
  unfold size_int, int_of_size, wrap_int.
  pose proof (Z.mod_pos_bound (Z.of_nat (length v) + 2147483648) 4294967296).
  pose proof (Z.mod_le (Z.of_nat (length v) + 2147483648) 4294967296).
  lia.
Qed.

Lemma size_int_fits {A} (v : list A) : fits_int v -> size_int v = length v.
Proof.
  unfold fits_int, size_int, int_of_size, wrap_int. intros H.
  rewrite Z.mod_small by lia. lia.
Qed.

Lemma fits_int_length {A B} (v : list A) (w : list B) :
  length v = length w -> fits_int v -> fits_int w.
Proof. unfold fits_int. by intros ->. Qed.

Lemma ordered_min_max i j : ordered i j = (i `min` j, i `max` j).
Proof.
  unfold ordered. destruct (j <? i) eqn:E;
    [apply Nat.ltb_lt in E | apply Nat.ltb_ge in E]; f_equal; lia.
Qed.

(** ** Reversal *)

Section ReverseFacts.
Context {A : Type}.
Implicit Types (t : list A) (first last k : nat).

Lemma length_iter_swap t a b : length (iter_swap t a b) = length t.
Proof.
  unfold iter_swap. destruct (t !! a), (t !! b); auto.
  by rewrite !length_insert.
Qed.

Lemma iter_swap_lookup t a b k :
  a < length t -> b < length t ->
  iter_swap t a b !! k =
    if decide (k = b) then t !! a
    else if decide (k = a) then t !! b else t !! k.
Proof.
  intros Ha Hb. unfold iter_swap.
  destruct (lookup_lt_is_Some_2 t a Ha) as [x Hx].
  destruct (lookup_lt_is_Some_2 t b Hb) as [y Hy].
  rewrite Hx, Hy.
  destruct (decide (k = b)) as [->|Hkb].
  - rewrite list_lookup_insert_eq; [done | by rewrite length_insert].
  - rewrite list_lookup_insert_ne by done.
    destruct (decide (k = a)) as [->|Hka].
    + by rewrite list_lookup_insert_eq.
    + by rewrite list_lookup_insert_ne.
Qed.

Lemma swapped_S t first last m :
  swapped t first last (S m) =
  iter_swap (swapped t first last m) (first + m) (last - m - 1).
Proof. unfold swapped. by rewrite seq_S, foldl_app. Qed.

Lemma length_swapped t first last m :
  length (swapped t first last m) = length t.
Proof.
  induction m as [|m IH]; [done|].
  by rewrite swapped_S, length_iter_swap.
Qed.

(** Loop invariant of the reversal: the [m] outermost positions on each
    side are mirrored, everything else is as before. *)
Lemma swapped_lookup t first last m k :
  last <= length t -> 2 * m <= last - first ->
  swapped t first last m !! k =
    if decide (first <= k < first + m \/ last - m <= k < last)
    then t !! (first + last - 1 - k) else t !! k.
Proof.
  intros Hlast. revert k. induction m as [|m IH]; intros k Hm.
  - simpl. case_decide; [lia | done].
  - rewrite swapped_S, iter_swap_lookup
      by (rewrite length_swapped; lia).
    rewrite !IH by lia.
    repeat case_decide; try lia; try done; f_equal; lia.
Qed.

Lemma length_std_reverse t first last :
  length (std_reverse t first last) = length t.
Proof. apply length_swapped. Qed.

Lemma std_reverse_lookup t first last k :
  first <= last <= length t ->
  std_reverse t first last !! k =
    if decide (first <= k < last)
    then t !! (first + last - 1 - k) else t !! k.
Proof.
  intros [Hfl Hlast].
  pose proof (Nat.div_mod_eq (last - first) 2) as Hdiv.
  pose proof (Nat.mod_upper_bound (last - first) 2) as Hmod.
  unfold std_reverse.
  rewrite swapped_lookup by lia.
  repeat case_decide; try done; try lia.
  f_equal. lia.
Qed.

(** The closed form: the segment is replaced by its mirror image. *)
Lemma std_reverse_segments t first last :
  first <= last <= length t ->
  std_reverse t first last =
    take first t ++ reverse (take (last - first) (drop first t)) ++ drop last t.
Proof.
  intros Hr. apply list_eq. intros k.
  rewrite std_reverse_lookup by done.
  destruct (decide (k < first)) as [Hlt|Hge].
  - rewrite lookup_app_l by (rewrite length_take; lia).
    rewrite lookup_take_lt by done. case_decide; [lia | done].
  - rewrite lookup_app_r by (rewrite length_take; lia).
    rewrite length_take, Nat.min_l by lia.
    destruct (decide (k < last)) as [Hlt|Hge'].
    + rewrite lookup_app_l
        by (rewrite length_reverse, length_take, length_drop; lia).
      rewrite reverse_lookup
        by (rewrite length_take, length_drop; lia).
      rewrite length_take, length_drop, Nat.min_l by lia.
      rewrite lookup_take_lt, lookup_drop by lia.
      case_decide; [f_equal; lia | lia].
    + rewrite lookup_app_r
        by (rewrite length_reverse, length_take, length_drop; lia).
      rewrite length_reverse, length_take, length_drop, Nat.min_l by lia.
      rewrite lookup_drop. case_decide; [lia | f_equal; lia].
Qed.

Lemma std_reverse_Permutation t first last :
  first <= last <= length t -> std_reverse t first last ≡ₚ t.
Proof.
  intros Hr. rewrite std_reverse_segments by done.
  rewrite reverse_Permutation.
  replace (drop last t) with (drop (last - first) (drop first t))
    by (rewrite drop_drop; f_equal; lia).
  by rewrite !take_drop.
Qed.

Lemma std_reverse_involutive t first last :
  first <= last <= length t ->
  std_reverse (std_reverse t first last) first last = t.
Proof.
  intros Hr. apply list_eq. intros k.
  rewrite !std_reverse_lookup by (rewrite ?length_std_reverse; done).
  repeat case_decide; try done; try lia. f_equal. lia.
Qed.

(** A range of fewer than two elements is left as it is: the loop of swaps
    has no iteration. *)
Lemma std_reverse_short t first last :
  last - first < 2 -> std_reverse t first last = t.
Proof.
  intros H. unfold std_reverse.
  replace ((last - first) / 2) with 0; [done|].
  symmetry. apply Nat.div_small. lia.
Qed.

(** A range of two or more elements of a tour without repetition is
    changed: its first position receives the element of its last. *)
Lemma std_reverse_changes t first last :
  NoDup t -> first + 2 <= last <= length t -> std_reverse t first last <> t.
Proof.
  intros Hnd Hr Heq.
  assert (std_reverse t first last !! first = t !! (last - 1)) as H.
  { rewrite std_reverse_lookup by lia.
    case_decide; [f_equal; lia | lia]. }
  rewrite Heq in H.
  destruct (lookup_lt_is_Some_2 t first) as [a Ha]; [lia|].
  rewrite Ha in H. symmetry in H.
  pose proof (NoDup_lookup _ _ _ _ Hnd Ha H). lia.
Qed.

Lemma length_move t i j : length (move t i j) = length t.
Proof. unfold move. case_match. apply length_std_reverse. Qed.

Lemma move_lookup t i j k :
  i < length t -> j < length t ->
  move t i j !! k =
    if decide (i `min` j <= k < i `max` j)
    then t !! (i `min` j + i `max` j - 1 - k) else t !! k.
Proof.
  intros Hi Hj. unfold move. rewrite ordered_min_max.
  apply std_reverse_lookup. lia.
Qed.

Lemma iter_swap_elem_of t a b z : z ∈ iter_swap t a b -> z ∈ t.
Proof.
  unfold iter_swap.
  destruct (t !! a) as [x|] eqn:Hx; [|done].
  destruct (t !! b) as [y|] eqn:Hy; [|done].
  intros [k Hk]%list_elem_of_lookup.
  pose proof (lookup_lt_Some _ _ _ Hx). pose proof (lookup_lt_Some _ _ _ Hy).
  apply list_elem_of_lookup.
  destruct (decide (k = b)) as [->|Hkb].
  - rewrite list_lookup_insert_eq in Hk by (by rewrite length_insert).
    injection Hk as <-. eauto.
  - rewrite list_lookup_insert_ne in Hk by done.
    destruct (decide (k = a)) as [->|Hka].
    + rewrite list_lookup_insert_eq in Hk by done.
      injection Hk as <-. eauto.
    + rewrite list_lookup_insert_ne in Hk by done. eauto.
Qed.

(** Whatever the range, a reversal brings in no new element. *)
Lemma std_reverse_elem_of t first last z :
  z ∈ std_reverse t first last -> z ∈ t.
Proof.
  unfold std_reverse. generalize ((last - first) / 2). intros m.
  induction m as [|m IH]; [done|].
  rewrite swapped_S. intros H%iter_swap_elem_of. auto.
Qed.

End ReverseFacts.

(** ** Binary64 *)

Section FloatFacts.
Implicit Types u v w : float.

Lemma SFltb_irrefl (a : spec_float) : SFltb a a = false.
Proof.
  unfold SFltb.
  destruct a as [s|s| |s m e]; simpl; try done; destruct s; try done;
    by rewrite Z.compare_refl, Pos.compare_cont_refl.
Qed.

Lemma SFltb_trans (a b c : spec_float) :
  SFltb a b = true -> SFltb b c = true -> SFltb a c = true.
Proof.
  unfold SFltb.
  destruct a as [sa|sa| |sa ma ea], b as [sb|sb| |sb mb eb],
           c as [sc|sc| |sc mc ec]; simpl;
    try destruct sa; try destruct sb; try destruct sc; simpl;
    try done.
  all: destruct (Z.compare_spec ea eb), (Z.compare_spec eb ec),
         (Z.compare_spec ea ec); try done; try lia.
  all: rewrite ?Pos.compare_cont_spec; simpl.
  all: destruct (Pos.compare_spec ma mb), (Pos.compare_spec mb mc),
         (Pos.compare_spec ma mc); simpl; try done; try lia.
Qed.

Lemma ltb_irrefl v : (v <? v)%float = false.
Proof. rewrite ltb_spec. apply SFltb_irrefl. Qed.

Lemma ltb_trans u v w :
  (u <? v)%float = true -> (v <? w)%float = true -> (u <? w)%float = true.
Proof. rewrite !ltb_spec. apply SFltb_trans. Qed.

Lemma ltb_asym u v : (u <? v)%float = true -> (v <? u)%float = false.
Proof.
  intros H. destruct (v <? u)%float eqn:E; [|done].
  pose proof (ltb_trans _ _ _ H E) as H'. by rewrite ltb_irrefl in H'.
Qed.

Lemma is_finite_spec v :
  is_finite v = true ->
  (exists s, Prim2SF v = S754_zero s) \/
  (exists s m e, Prim2SF v = S754_finite s m e).
Proof.
  unfold is_finite, is_nan, is_infinity.
  rewrite !FloatAxioms.eqb_spec, abs_spec.
  destruct (Prim2SF v) as [s|s| |s m e]; eauto; simpl.
  - destruct s; vm_compute; done.
  - vm_compute; done.
Qed.

Lemma sub_diag v : is_finite v = true -> (v - v)%float = 0%float.
Proof.
  intros H. apply Prim2SF_inj. rewrite sub_spec.
  destruct (is_finite_spec v H) as [[s ->]|(s & m & e & ->)].
  - by destruct s.
  - unfold SF64sub, SFsub. rewrite Z.sub_diag. reflexivity.
Qed.
Lemma leb_zero_ltb v : (0 <=? v)%float = true -> (v <? 0)%float = false.
Proof.
  rewrite leb_spec, ltb_spec. unfold SFleb, SFltb.
  change (Prim2SF 0) with (S754_zero false).
  by destruct (Prim2SF v) as [s|s| |s m e]; simpl; try destruct s.
Qed.

End FloatFacts.

(** ** Signs of binary64 results *)

Section Binary64Sign.

Lemma iter_pos_invariant {A} (P : A -> Prop) (f : A -> A) p a :
  (forall b, P b -> P (f b)) -> P a -> P (SpecFloat.iter_pos f p a).
Proof.
  intros Hf. revert a. induction p as [p IH|p IH|]; simpl; auto.
Qed.

Lemma shr_1_nonneg mrs : (0 <= shr_m mrs)%Z -> (0 <= shr_m (shr_1 mrs))%Z.
Proof.
  destruct mrs as [m r s]. simpl.
  destruct m as [|p|p]; [done| |lia]. intros _. by destruct p.
Qed.

Lemma shr_fexp_nonneg m e l :
  (0 <= m)%Z -> (0 <= shr_m (shr_fexp prec emax m e l).1)%Z.
Proof.
  intros Hm. unfold shr_fexp, shr.
  assert (0 <= shr_m (shr_record_of_loc m l))%Z as H0
    by (by destruct l as [|[]]).
  destruct (_ - e)%Z; simpl; try done.
  apply (iter_pos_invariant (fun mrs => 0 <= shr_m mrs)%Z); [|done].
  apply shr_1_nonneg.
Qed.

Lemma round_nearest_even_nonneg m l :
  (0 <= m)%Z -> (0 <= round_nearest_even m l)%Z.
Proof.
  intros Hm. destruct l as [|[]]; simpl; try lia.
  destruct (Z.even m); lia.
Qed.

Lemma binary_round_aux_signed s m e l :
  (0 <= m)%Z -> SFsigned s (binary_round_aux prec emax s m e l).
Proof.
  intros Hm. unfold binary_round_aux.
  pose proof (shr_fexp_nonneg m e l Hm) as H1.
  destruct (shr_fexp prec emax m e l) as [mrs' e']. simpl in H1.
  pose proof (shr_fexp_nonneg _ e' loc_Exact
                (round_nearest_even_nonneg _ (loc_of_shr_record mrs') H1))
    as H2.
  destruct (shr_fexp prec emax _ e' loc_Exact) as [mrs'' e'']. simpl in H2.
  destruct (shr_m mrs'') as [|p|p]; [done| |lia].
  by destruct (_ <=? _)%Z.
Qed.

Lemma binary_normalize_not_nan m e :
  SFnot_nan (binary_normalize prec emax m e false).
Proof.
  unfold binary_normalize, binary_round.
  destruct m as [|p|p]; [done|..];
    destruct (shl_align _ _ _) as [mz ez];
    match goal with
    | |- SFnot_nan (binary_round_aux _ _ ?s ?m ?e ?l) =>
        pose proof (binary_round_aux_signed s m e l ltac:(lia)) as H;
        by destruct (binary_round_aux _ _ s m e l)
    end.
Qed.

Lemma binary_normalize_nonneg m e :
  (0 <= m)%Z -> SFnonneg (binary_normalize prec emax m e false).
Proof.
  unfold binary_normalize, binary_round.
  destruct m as [|p|p]; [done| |lia]. intros _.
  destruct (shl_align _ _ _) as [mz ez].
  pose proof (binary_round_aux_signed false (Z.pos mz) ez loc_Exact
                ltac:(lia)) as H.
  by destruct (binary_round_aux _ _ _ _ _ _).
Qed.

Lemma SFsub_not_nan a b :
  (forall s, a <> S754_infinity s) -> (forall s, b <> S754_infinity s) ->
  SFnot_nan a -> SFnot_nan b -> SFnot_nan (SFsub prec emax a b).
Proof.
  intros Ha Hb.
  destruct a as [sa|sa| |sa ma ea]; try done; try (by destruct (Ha sa));
  destruct b as [sb|sb| |sb mb eb]; try done; try (by destruct (Hb sb));
    intros _ _; simpl.
  - by destruct sa, sb.
  - apply binary_normalize_not_nan.
Qed.

Lemma SFmul_self_nonneg a : SFnot_nan a -> SFnonneg (SFmul prec emax a a).
Proof.
  destruct a as [s|s| |s m e]; try done; intros _; simpl;
    try (by destruct s).
  pose proof (binary_round_aux_signed (xorb s s) (Z.pos (m * m)) (e + e)
                loc_Exact ltac:(lia)) as H.
  rewrite xorb_nilpotent in *.
  by destruct (binary_round_aux _ _ _ _ _ _).
Qed.

Lemma SFadd_nonneg a b :
  SFnonneg a -> SFnonneg b -> SFnonneg (SFadd prec emax a b).
Proof.
  destruct a as [sa|sa| |sa ma ea], b as [sb|sb| |sb mb eb];
    simpl; try done; try (intros -> ->; done);
    try (by destruct sa, sb).
  intros -> ->. apply binary_normalize_nonneg. simpl. lia.
Qed.

Lemma SFsqrt_nonneg a : SFnonneg a -> SFnonneg (SFsqrt prec emax a).
Proof.
  destruct a as [s|s| |s m e]; simpl; try done; intros ->; [done|].
  destruct (SFsqrt_core_binary prec emax (Z.pos m) e) as [[mz ez] lz] eqn:Hc.
  assert (0 <= mz)%Z as Hmz.
  { unfold SFsqrt_core_binary in Hc.
    destruct (Z.sqrtrem _) as [q r] eqn:Hq. injection Hc as <- _ _.
    pose proof (Z.sqrtrem_sqrt
      match (e - 2 * Z.min (fexp prec emax (Z.div2 (Zdigits2 (Z.pos m) + e + 1))) (Z.div2 e))%Z with
      | 0%Z => Z.pos m
      | Z.pos _ => Z.shiftl (Z.pos m) (e - 2 * Z.min (fexp prec emax (Z.div2 (Zdigits2 (Z.pos m) + e + 1))) (Z.div2 e))
      | Z.neg _ => 0%Z
      end) as Hs.
    rewrite Hq in Hs. simpl in Hs. subst q. apply Z.sqrt_nonneg. }
  pose proof (binary_round_aux_signed false mz ez lz Hmz) as H.
  by destruct (binary_round_aux _ _ _ _ _ _).
Qed.

Lemma SFleb_of_not_ltb a b :
  SFnonneg a -> SFnonneg b -> SFltb a b = false -> SFleb b a = true.
Proof.
  unfold SFltb, SFleb.
  destruct a as [sa|sa| |sa ma ea], b as [sb|sb| |sb mb eb];
    simpl; intros Ha Hb; try done; subst; try done.
  destruct (Z.compare_spec ea eb), (Z.compare_spec eb ea);
    try done; try lia.
  rewrite !Pos.compare_cont_spec. simpl.
  destruct (Pos.compare_spec ma mb), (Pos.compare_spec mb ma);
    try done; lia.
Qed.

Lemma leb_zero_nonneg v : (0 <=? v)%float = true <-> SFnonneg (Prim2SF v).
Proof.
  rewrite leb_spec. unfold SFleb.
  change (Prim2SF 0) with (S754_zero false).
  destruct (Prim2SF v) as [s|s| |s m e]; simpl; try destruct s; intuition done.
Qed.

Lemma is_finite_not_infinity v :
  is_finite v = true ->
  SFnot_nan (Prim2SF v) /\ forall s, Prim2SF v <> S754_infinity s.
Proof.
  unfold is_finite, is_nan, is_infinity.
  rewrite !FloatAxioms.eqb_spec, abs_spec.
  destruct (Prim2SF v) as [s|s| |s m e]; try done.
  by destruct s.
Qed.

Lemma sub_not_nan u v :
  is_finite u = true -> is_finite v = true -> SFnot_nan (Prim2SF (u - v)).
Proof.
  intros [Hu Hu']%is_finite_not_infinity [Hv Hv']%is_finite_not_infinity.
  rewrite sub_spec. by apply SFsub_not_nan.
Qed.

Lemma mul_self_nonneg v :
  SFnot_nan (Prim2SF v) -> (0 <=? v * v)%float = true.
Proof.
  intros H. apply leb_zero_nonneg. rewrite mul_spec.
  by apply SFmul_self_nonneg.
Qed.

Lemma add_nonneg u v :
  (0 <=? u)%float = true -> (0 <=? v)%float = true ->
  (0 <=? u + v)%float = true.
Proof.
  rewrite !leb_zero_nonneg, add_spec. apply SFadd_nonneg.
Qed.

Lemma sqrt_nonneg v :
  (0 <=? v)%float = true -> (0 <=? sqrt v)%float = true.
Proof.
  rewrite !leb_zero_nonneg, sqrt_spec. apply SFsqrt_nonneg.
Qed.

Lemma leb_of_not_ltb u v :
  (0 <=? u)%float = true -> (0 <=? v)%float = true ->
  (u <? v)%float = false -> (v <=? u)%float = true.
Proof.
  rewrite !leb_zero_nonneg, ltb_spec, leb_spec. apply SFleb_of_not_ltb.
Qed.

End Binary64Sign.

(** ** The cost of a tour *)

Section CostFacts.

Lemma foldl_seq_lookup {A B} (f : B -> A -> B) (g : B -> nat -> B) l b :
  (forall i a acc, l !! i = Some a -> g acc i = f acc a) ->
  foldl g b (seq 0 (length l)) = foldl f b l.
Proof.
  induction l as [|a l IH] using rev_ind; intros Hg; [done|].
  rewrite length_app, Nat.add_1_r, seq_S, !foldl_app. simpl.
  rewrite IH.
  - apply Hg. by rewrite lookup_app_r, Nat.sub_diag.
  - intros i a' acc Hi. apply Hg. by apply lookup_app_l_Some.
Qed.

Lemma foldl_Some {A} (f : double -> A -> double) l b :
  foldl (fun acc a => d ← acc; Some (f d a)) (Some b) l = Some (foldl f b l).
Proof. revert b. induction l as [|a l IH]; intros b; [done|]. apply IH. Qed.

Lemma foldl_None {A} (g : option double -> A -> option double) l :
  (forall a, g None a = None) -> foldl g None l = None.
Proof. intros Hg. induction l as [|a l IH]; [done|]. simpl. by rewrite Hg. Qed.

Lemma length_cyclic_pairs {A} (l : list A) :
  length (cyclic_pairs l) = length l.
Proof.
  unfold cyclic_pairs.
  rewrite length_zip_with, length_app, length_drop, length_take. lia.
Qed.

(** The pair at position [i] ends at position [(i+1) mod n]: for the last
    position this is position 0, the wrap-around edge. *)
Lemma cyclic_pairs_lookup {A} (l : list A) i :
  cyclic_pairs l !! i =
    a ← l !! i; b ← l !! ((i + 1) mod length l); Some (a, b).
Proof.
  unfold cyclic_pairs. rewrite lookup_zip_with.
  destruct (l !! i) as [a|] eqn:Ha; [|done]. simpl.
  apply lookup_lt_Some in Ha.
  replace ((drop 1 l ++ take 1 l) !! i)
    with (l !! ((i + 1) mod length l)); [done|].
  destruct (decide (i + 1 < length l)) as [Hlt|Hge].
  - rewrite Nat.mod_small by done.
    rewrite lookup_app_l by (rewrite length_drop; lia).
    rewrite lookup_drop. f_equal. lia.
  - replace (i + 1) with (length l) by lia.
    rewrite Nat.Div0.mod_same.
    rewrite lookup_app_r by (rewrite length_drop; lia).
    rewrite length_drop.
    replace (i - (length l - 1)) with 0 by lia.
    by destruct l.
Qed.

Lemma add_edge_None tour cities n i : add_edge tour cities n None i = None.
Proof. done. Qed.

Lemma totalDistance_totalCost tour cities :
  fits_int tour -> totalDistance tour cities = totalCost tour cities.
Proof.
  intros Hfit. unfold totalDistance, totalCost.
  rewrite (size_int_fits _ Hfit).
  destruct (mapM (at_int cities) tour) as [route|] eqn:Hroute; simpl.
  - apply mapM_Some in Hroute.
    pose proof (Forall2_length _ _ _ Hroute) as Hlen.
    rewrite <- foldl_Some, Hlen, <- (length_cyclic_pairs route).
    apply foldl_seq_lookup. intros i [a b] acc Hi.
    rewrite cyclic_pairs_lookup in Hi.
    destruct (route !! i) as [a'|] eqn:Ha; [|done]. simpl in Hi.
    destruct (route !! ((i + 1) mod length route)) as [b'|] eqn:Hb; [|done].
    injection Hi as -> ->.
    destruct (Forall2_lookup_r _ _ _ _ _ Hroute Ha) as (za & Hza & Hca).
    destruct (Forall2_lookup_r _ _ _ _ _ Hroute Hb) as (zb & Hzb & Hcb).
    unfold add_edge. destruct acc as [d|]; [simpl|done].
    rewrite length_cyclic_pairs, Hza, Hzb. simpl. rewrite Hca. simpl.
    by rewrite Hcb.
  - assert (exists i z, tour !! i = Some z /\ at_int cities z = None)
      as (i & z & Hi & Hz).
    { destruct (decide (Forall (fun z => is_Some (at_int cities z)) tour))
        as [Hall|Hex].
      - apply mapM_is_Some in Hall. rewrite Hroute in Hall.
        by destruct Hall.
      - apply not_Forall_Exists in Hex; [|apply _].
        apply Exists_exists in Hex as (z & Hin & Hz).
        apply list_elem_of_lookup in Hin as [i Hi].
        exists i, z. split; [done|].
        simpl in Hz. by apply eq_None_not_Some. }
    pose proof (lookup_lt_Some _ _ _ Hi) as Hlt.
    replace (length tour) with (i + (1 + (length tour - i - 1))) at 2 by lia.
    rewrite !seq_app, !foldl_app. simpl.
    replace (add_edge tour cities (length tour) _ i) with (@None double).
    + apply foldl_None. intros; apply add_edge_None.
    + unfold add_edge.
      destruct (foldl _ _ (seq 0 i)); [|done]. simpl.
      rewrite Hi. simpl. by rewrite Hz.
Qed.

(** A tour has a cost exactly when all its entries index a city. *)
Lemma totalDistance_is_Some_iff tour cities :
  fits_int tour ->
  is_Some (totalDistance tour cities) <->
  Forall (fun z => is_Some (at_int cities z)) tour.
Proof.
  intros Hfit. rewrite totalDistance_totalCost by done.
  unfold totalCost. rewrite <- (mapM_is_Some (at_int cities)).
  destruct (mapM (at_int cities) tour); simpl; split; intros [? ?]; eauto;
    done.
Qed.

End CostFacts.

(** ** The engine *)

Lemma drawn_lt n g i j g2 :
  0 < n -> drawn n g = (i, j, g2) -> i < n /\ j < n.
Proof.
  unfold drawn, dist, next. simpl. intros Hn [= <- <- _].
  split; apply Nat.mod_upper_bound; lia.
Qed.

Section EngineFacts.
Variable exp : double -> double.
Variable cities : list City.

Local Abbreviation body := (body exp cities).
Local Abbreviation loop := (loop exp cities).
Local Abbreviation reaches := (reaches exp cities).
Local Abbreviation accept := (accept exp).
Local Abbreviation consistent := (consistent cities).
Local Abbreviation best_is_minimum := (best_is_minimum cities).

(** Every pass through the body is of one of two kinds. *)
Lemma body_cases n s e s' :
  body n s = Some (e, s') ->
  forall i j g2, drawn n (gen s) = (i, j, g2) ->
  (i = j /\ e = Redraw i /\ unchanged s s' /\ T s' = T s /\ gen s' = g2)
  \/
  (i <> j /\
   exists nd,
     let lo := i `min` j in
     let hi := i `max` j in
     let cand := std_reverse (tour s) lo hi in
     let dec := accept (nd - currentDistance s)%float (T s) g2 in
     totalDistance cand cities = Some nd /\
     e = Evaluated lo hi cand nd dec.1 /\
     T s' = (T s * coolingRate)%float /\
     gen s' = dec.2 /\
     if dec.1 then
       tour s' = cand /\ currentDistance s' = nd /\
       if (nd <? bestDistance s)%float
       then bestTour s' = cand /\ bestDistance s' = nd
       else bestTour s' = bestTour s /\ bestDistance s' = bestDistance s
     else
       tour s' = std_reverse cand lo hi /\
       currentDistance s' = currentDistance s /\
       bestTour s' = bestTour s /\ bestDistance s' = bestDistance s).
Proof.
  intros Hb i j g2 Hd. unfold body in Hb. rewrite Hd in Hb.
  destruct (i =? j) eqn:Hij.
  - apply Nat.eqb_eq in Hij. injection Hb as <- <-.
    left. by repeat split.
  - apply Nat.eqb_neq in Hij. right. split; [done|].
    rewrite ordered_min_max in Hb.
    destruct (totalDistance _ cities) as [nd|] eqn:Hnd; [|done].
    simpl in Hb. exists nd. simpl.
    destruct (accept _ _ _) as [acc g3] eqn:Hacc.
    injection Hb as <- <-. simpl.
    destruct acc; [destruct (nd <? bestDistance s)%float|]; by repeat split.
Qed.

Lemma drawn_in_range n s i j g2 :
  0 < n <= length (tour s) -> drawn n (gen s) = (i, j, g2) -> i <> j ->
  i `min` j < i `max` j < length (tour s).
Proof.
  intros [Hn Hlen] Hd Hij.
  destruct (drawn_lt n _ _ _ _ Hn Hd). lia.
Qed.

(** A pass keeps the size of the working vector and permutes it. *)
Lemma body_Permutation n s e s' :
  0 < n <= length (tour s) -> body n s = Some (e, s') -> tour s' ≡ₚ tour s.
Proof.
  intros Hn Hb.
  destruct (drawn n (gen s)) as [[i j] g2] eqn:Hd.
  destruct (body_cases n s e s' Hb i j g2 Hd)
    as [(_ & _ & (-> & _) & _)|(Hij & nd & _ & _ & _ & _ & Hs)];
    [done|].
  pose proof (drawn_in_range n s i j g2 Hn Hd Hij) as Hr.
  simpl in Hs. destruct (accept _ _ _).1.
  - destruct Hs as (-> & _). apply std_reverse_Permutation. lia.
  - destruct Hs as (-> & _).
    rewrite std_reverse_involutive by lia. done.
Qed.

Lemma body_consistent n s e s' :
  0 < n <= length (tour s) -> body n s = Some (e, s') ->
  consistent s -> consistent s'.
Proof.
  intros Hn Hb [Hcur Hbest].
  destruct (drawn n (gen s)) as [[i j] g2] eqn:Hd.
  destruct (body_cases n s e s' Hb i j g2 Hd)
    as [(_ & _ & (Ht & Hc & Hbt & Hbd) & _)
       |(Hij & nd & Hnd & _ & _ & _ & Hs)].
  - unfold consistent. by rewrite Ht, Hc, Hbt, Hbd.
  - pose proof (drawn_in_range n s i j g2 Hn Hd Hij) as Hr.
    simpl in Hs, Hnd. unfold consistent.
    destruct (accept _ _ _).1.
    + destruct Hs as (-> & -> & Hs).
      destruct (nd <? bestDistance s)%float;
        destruct Hs as (-> & ->); done.
    + destruct Hs as (-> & -> & -> & ->).
      rewrite std_reverse_involutive by lia. done.
Qed.

Lemma initial_consistent tour0 g s0 :
  initial cities tour0 g = Some s0 ->
  tour s0 = tour0 /\ bestTour s0 = tour0 /\ consistent s0 /\
  T s0 = initialTemperature /\ gen s0 = g.
Proof.
  unfold initial, consistent.
  destruct (totalDistance tour0 cities) as [d|] eqn:Hd; [|done].
  simpl. by intros [= <-].
Qed.

Lemma reaches_invariants n s0 tr s :
  0 < n <= length (tour s0) -> reaches n s0 tr s ->
  tour s ≡ₚ tour s0 /\ (consistent s0 -> consistent s).
Proof.
  intros Hn Hr. induction Hr as [|tr s e s' _ [IHp IHc] _ Hb]; [done|].
  assert (0 < n <= length (tour s)) as Hn'
    by (by rewrite (Permutation_length IHp)).
  split.
  - by rewrite (body_Permutation n s e s' Hn' Hb).
  - intros H0. eapply body_consistent; eauto.
Qed.

(** After a start without undefined behaviour, no pass has any. *)
Lemma body_is_Some n s :
  fits_int (tour s) -> is_Some (totalDistance (tour s) cities) ->
  is_Some (body n s).
Proof.
  intros Hfit Hs. unfold body.
  destruct (drawn n (gen s)) as [[i j] g2].
  destruct (i =? j); [done|].
  destruct (ordered i j) as [lo hi].
  assert (is_Some (totalDistance (std_reverse (tour s) lo hi) cities))
    as [nd ->].
  { apply totalDistance_is_Some_iff.
    - eapply fits_int_length; [|done]. by rewrite length_std_reverse.
    - apply totalDistance_is_Some_iff in Hs; [|done].
      rewrite Forall_forall in *.
      intros z Hz%std_reverse_elem_of. auto. }
  simpl. by destruct (accept _ _ _).
Qed.

(** ** Runs of [loop] as runs of [reaches] *)

Lemma reaches_first n s e s1 tr s' :
  running s = true -> body n s = Some (e, s1) ->
  reaches n s1 tr s' -> reaches n s (e :: tr) s'.
Proof.
  intros Hrun Hb Hr. induction Hr as [|tr s2 e2 s3 _ IH Hrun2 Hb2].
  - apply (reaches_pass exp cities n s [] s e s1); [constructor|done..].
  - rewrite app_comm_cons. by eapply reaches_pass.
Qed.

Lemma loop_Finished fuel n s s' :
  loop fuel n s = Finished s' ->
  exists tr, reaches n s tr s' /\ running s' = false.
Proof.
  revert s. induction fuel as [|fuel IH]; intros s; simpl;
    destruct (running s) eqn:Hrun; try done.
  - intros [= <-]. exists []. split; [constructor | done].
  - destruct (body n s) as [[e s1]|] eqn:Hb; [|done].
    intros Hl. destruct (IH _ Hl) as (tr & Hr & Hstop).
    exists (e :: tr). split; [by eapply reaches_first | done].
  - intros [= <-]. exists []. split; [constructor | done].
Qed.

(** ** Best-solution tracking *)

Lemma committed_snoc tour0 tr e :
  committed tour0 (tr ++ [e]) =
  committed tour0 tr ++ from_option (fun c => [c]) [] (accepted_candidate e).
Proof.
  unfold committed. rewrite omap_app, app_comm_cons. simpl.
  by destruct (accepted_candidate e).
Qed.

Lemma body_best_is_minimum n tour0 tr s e s' :
  body n s = Some (e, s') ->
  best_is_minimum tour0 tr s -> best_is_minimum tour0 (tr ++ [e]) s'.
Proof.
  intros Hb (Hin & Hcost & Hmin).
  destruct (drawn n (gen s)) as [[i j] g2] eqn:Hd.
  unfold best_is_minimum. rewrite committed_snoc.
  destruct (body_cases n s e s' Hb i j g2 Hd)
    as [(_ & -> & (_ & _ & -> & ->) & _)
       |(Hij & nd & Hnd & -> & _ & _ & Hs)].
  - simpl. by rewrite app_nil_r.
  - simpl in Hs, Hnd.
    destruct (accept _ _ _).1; cbn [accepted_candidate from_option].
    + destruct Hs as (_ & _ & Hs).
      destruct (nd <? bestDistance s)%float eqn:Hlt;
        destruct Hs as (-> & ->).
      * split; [apply elem_of_app; right; by apply list_elem_of_singleton|].
        split; [done|].
        intros t [Ht|Ht]%elem_of_app.
        -- destruct (Hmin t Ht) as (d & Hd' & Hge). exists d.
           split; [done|].
           destruct (d <? nd)%float eqn:Hdn; [|done].
           by rewrite (ltb_trans _ _ _ Hdn Hlt) in Hge.
        -- apply list_elem_of_singleton in Ht as ->. exists nd.
           split; [done | apply ltb_irrefl].
      * split; [apply elem_of_app; by left|]. split; [done|].
        intros t [Ht|Ht]%elem_of_app; [by apply Hmin|].
        apply list_elem_of_singleton in Ht as ->. by exists nd.
    + destruct Hs as (_ & _ & -> & ->). by rewrite app_nil_r.
Qed.

Lemma body_best_decreases n s e s' :
  body n s = Some (e, s') ->
  bestDistance s' = bestDistance s \/
  (bestDistance s' <? bestDistance s)%float = true.
Proof.
  intros Hb.
  destruct (drawn n (gen s)) as [[i j] g2] eqn:Hd.
  destruct (body_cases n s e s' Hb i j g2 Hd)
    as [(_ & _ & (_ & _ & _ & ->) & _)
       |(Hij & nd & _ & _ & _ & _ & Hs)]; [by left|].
  simpl in Hs. destruct (accept _ _ _).1.
  - destruct Hs as (_ & _ & Hs).
    destruct (nd <? bestDistance s)%float eqn:Hlt;
      destruct Hs as (_ & ->); auto.
  - destruct Hs as (_ & _ & _ & ->). by left.
Qed.

Lemma reaches_best_decreases n s tr s' :
  reaches n s tr s' ->
  bestDistance s' = bestDistance s \/
  (bestDistance s' <? bestDistance s)%float = true.
Proof.
  intros Hr. induction Hr as [|tr s1 e s2 _ IH _ Hb]; [by left|].
  destruct (body_best_decreases n s1 e s2 Hb) as [->|Hlt]; [done|].
  destruct IH as [<-|Hlt']; [by right|].
  right. by eapply ltb_trans.
Qed.

(** Sizes never change. *)
Lemma body_length n s e s' :
  body n s = Some (e, s') ->
  length (tour s') = length (tour s) /\
  forall c, accepted_candidate e = Some c -> length c = length (tour s).
Proof.
  intros Hb.
  destruct (drawn n (gen s)) as [[i j] g2] eqn:Hd.
  destruct (body_cases n s e s' Hb i j g2 Hd)
    as [(_ & -> & (-> & _) & _)|(Hij & nd & _ & -> & _ & _ & Hs)];
    [done|].
  simpl in Hs. simpl. destruct (accept _ _ _).1.
  - destruct Hs as (-> & _). rewrite length_std_reverse.
    split; [done|]. by intros c [= <-]; rewrite length_std_reverse.
  - destruct Hs as (-> & _). by rewrite !length_std_reverse.
Qed.

Lemma reaches_length n s0 tr s :
  reaches n s0 tr s ->
  length (tour s) = length (tour s0) /\
  forall t, t ∈ committed (tour s0) tr -> length t = length (tour s0).
Proof.
  intros Hr. induction Hr as [|tr s e s' _ [IHl IHc] _ Hb].
  - split; [done|]. by intros t ->%list_elem_of_singleton.
  - destruct (body_length n s e s' Hb) as [Hl Hc].
    split; [congruence|]. intros t. rewrite committed_snoc.
    intros [Ht|Ht]%elem_of_app; [auto|].
    destruct (accepted_candidate e) as [c|]; simpl in Ht.
    + apply list_elem_of_singleton in Ht as ->. rewrite <- IHl. by apply Hc.
    + by apply elem_of_nil in Ht.
Qed.

End EngineFacts.

(** ** Particular passes and runs *)

Section RunFacts.
Variable exp : double -> double.
Variable cities : list City.

Local Abbreviation body := (body exp cities).
Local Abbreviation loop := (loop exp cities).
Local Abbreviation reaches := (reaches exp cities).
Local Abbreviation passes := (passes exp cities).

Lemma passes_reaches k n s tr s' :
  passes k n s = Some (tr, s') -> reaches n s tr s'.
Proof.
  revert s tr. induction k as [|k IH]; intros s tr; simpl.
  - intros [= <- <-]. constructor.
  - destruct (running s) eqn:Hrun; [|done].
    destruct (body n s) as [[e s1]|] eqn:Hb; [simpl|done].
    destruct (passes k n s1) as [[tr1 s2]|] eqn:Hp; [simpl|done].
    intros [= <- <-]. eapply reaches_first; eauto.
Qed.

Lemma first_passes_reaches k tour0 g tr s :
  first_passes exp cities k tour0 g = Some (tr, s) ->
  exists s0, initial cities tour0 g = Some s0 /\
             reaches (size_int tour0) s0 tr s.
Proof.
  unfold first_passes.
  destruct (initial cities tour0 g) as [s0|]; [simpl|done].
  intros H%passes_reaches. eauto.
Qed.

(** With one position to draw from, both draws are position 0. *)
Lemma drawn_single g : exists g2, drawn 1 g = (0, 0, g2).
Proof.
  unfold drawn, dist, next. cbv beta iota zeta.
  rewrite !Nat.mod_1_r. eauto.
Qed.

Lemma body_single s :
  exists s', body 1 s = Some (Redraw 0, s') /\ T s' = T s.
Proof.
  unfold body. destruct (drawn_single (gen s)) as [g2 ->]. simpl. eauto.
Qed.

Lemma loop_S fuel n s :
  loop (S fuel) n s =
    if running s then
      match body n s with
      | None => Undefined
      | Some (_, s') => loop fuel n s'
      end
    else Finished s.
Proof. done. Qed.

(** ... so the pass skips the move and the cooling, and the loop
    condition holds for ever. *)
Lemma loop_single fuel s :
  running s = true -> loop fuel 1 s = OutOfFuel.
Proof.
  revert s. induction fuel as [|fuel IH]; intros s Hrun.
  - simpl. by rewrite Hrun.
  - rewrite loop_S, Hrun.
    destruct (body_single s) as (s' & -> & HT).
    apply IH. unfold running in *. by rewrite HT.
Qed.

(** A range of one element: the candidate is the current tour. *)
Lemma body_adjacent n s i j g2 e s' :
  drawn n (gen s) = (i, j, g2) -> j = S i \/ i = S j ->
  body n s = Some (e, s') ->
  exists nd acc,
    e = Evaluated (i `min` j) (i `max` j) (tour s) nd acc /\
    tour s' = tour s.
Proof.
  intros Hd Hadj Hb.
  destruct (body_cases exp cities n s e s' Hb i j g2 Hd)
    as [(-> & _)|(Hij & nd & _ & He & _ & _ & Hs)]; [lia|].
  simpl in He, Hs.
  rewrite (std_reverse_short (tour s)) in He, Hs by lia.
  rewrite (std_reverse_short (tour s)) in Hs by lia.
  exists nd, (accept exp (nd - currentDistance s)%float (T s) g2).1.
  split; [done|]. destruct (accept _ _ _ _).1; by destruct Hs.
Qed.

(** A run that the loop condition ends is what [loop] returns, whatever
    fuel beyond the passes of the run it is given. *)
Lemma loop_reaches fuel n s0 tr s :
  reaches n s0 tr s -> length tr <= fuel ->
  loop fuel n s0 = loop (fuel - length tr) n s.
Proof.
  intros Hr. revert fuel.
  induction Hr as [|tr s e s' _ IH Hrun Hb]; intros fuel Hfuel.
  - simpl. by rewrite Nat.sub_0_r.
  - rewrite length_app in *. simpl in *.
    rewrite IH by lia.
    replace (fuel - length tr) with (S (fuel - (length tr + 1))) by lia.
    by rewrite loop_S, Hrun, Hb.
Qed.

Lemma loop_stopped fuel n s : running s = false -> loop fuel n s = Finished s.
Proof. intros H. destruct fuel; simpl; by rewrite H. Qed.

(** ** The cooling schedule *)

Lemma coolings_snoc tr e : coolings (tr ++ [e]) = (coolings tr + cooling e)%N.
Proof.
  unfold coolings. induction tr as [|e' tr IH]; simpl; [lia|].
  rewrite IH. lia.
Qed.

Lemma cool_succ k t : cool (N.succ k) t = (cool k t * coolingRate)%float.
Proof. unfold cool. by rewrite N.iter_succ. Qed.

Lemma cool_succ_r k t : cool (N.succ k) t = cool k (t * coolingRate)%float.
Proof. unfold cool. by rewrite N.iter_succ_r. Qed.

Lemma reaches_temperature n s0 tr s :
  reaches n s0 tr s -> T s = cool (coolings tr) (T s0).
Proof.
  intros Hr. induction Hr as [|tr s e s' _ IH _ Hb]; [done|].
  rewrite coolings_snoc.
  destruct (drawn n (gen s)) as [[i j] g2] eqn:Hd.
  destruct (body_cases exp cities n s e s' Hb i j g2 Hd)
    as [(_ & -> & _ & -> & _)|(_ & nd & _ & -> & -> & _)]; simpl.
  - by rewrite N.add_0_r.
  - by rewrite N.add_1_r, cool_succ, IH.
Qed.

Lemma stops_after_spec fuel t k K :
  stops_after fuel t k = Some K ->
  (k <= K)%N /\
  (absoluteTemperature <? cool (K - k) t)%float = false /\
  forall j, (j < K - k)%N -> (absoluteTemperature <? cool j t)%float = true.
Proof.
  revert t k. induction fuel as [|fuel IH]; intros t k; simpl;
    destruct (absoluteTemperature <? t)%float eqn:Hrun; try done.
  - intros [= <-]. rewrite N.sub_diag. split; [lia|]. split; [done|]. lia.
  - intros H. destruct (IH _ _ H) as (Hle & Hstop & Hbefore).
    split; [lia|].
    replace (K - k)%N with (N.succ (K - N.succ k)) by lia.
    split; [by rewrite cool_succ_r|].
    intros j Hj. destruct (N.eq_dec j 0%N) as [->|Hj0]; [done|].
    replace j with (N.succ (N.pred j)) by lia.
    rewrite cool_succ_r. apply Hbefore. lia.
  - intros [= <-]. rewrite N.sub_diag. split; [lia|]. split; [done|]. lia.
Qed.

(** From 10000 the loop condition fails after 207223 coolings, not before. *)
Lemma schedule_length :
  stops_after (N.to_nat 300000) initialTemperature 0 = Some 207223%N.
Proof. vm_compute. reflexivity. Qed.

(** Every run from the initial temperature has at most 207223 coolings, and
    the loop condition fails exactly when it has that many. *)
Lemma reaches_coolings n s0 tr s :
  T s0 = initialTemperature -> reaches n s0 tr s ->
  (coolings tr <= 207223)%N /\
  (running s = false <-> coolings tr = 207223%N).
Proof.
  intros HT Hr.
  destruct (stops_after_spec _ _ _ _ schedule_length)
    as (_ & Hstop & Hbefore).
  rewrite N.sub_0_r in *.
  assert (forall tr s, reaches n s0 tr s ->
            running s = false <-> coolings tr = 207223%N \/
                                  (207223 < coolings tr)%N) as Hiff.
  { intros tr1 s1 Hr1. unfold running.
    rewrite (reaches_temperature n s0 tr1 s1 Hr1), HT.
    destruct (N.lt_trichotomy (coolings tr1) 207223%N) as [Hlt|[->|Hgt]].
    - rewrite (Hbefore _ Hlt). split; [done | lia].
    - rewrite Hstop. split; auto.
    - split; [auto|]. intros _. exfalso. clear Hr.
      induction Hr1 as [|tr1 s1 e s2 Hr1 IH Hrun Hb]; [simpl in Hgt; lia|].
      rewrite coolings_snoc in Hgt.
      assert (coolings tr1 = 207223%N \/ (207223 < coolings tr1)%N) as Hc
        by (destruct e; simpl in Hgt; lia).
      destruct Hc as [Hc|Hc]; [|auto].
      unfold running in Hrun.
      rewrite (reaches_temperature n s0 tr1 s1 Hr1), HT, Hc, Hstop in Hrun.
      done. }
  assert (coolings tr <= 207223)%N as Hle.
  { clear Hstop Hbefore. induction Hr as [|tr s e s' Hr IH Hrun Hb];
      [simpl; lia|].
    rewrite coolings_snoc.
    destruct (N.eq_dec (coolings tr) 207223%N) as [Heq|Hne].
    - assert (running s = false) by (apply (Hiff tr s Hr); auto). congruence.
    - destruct e; simpl; lia. }
  split; [done|]. rewrite (Hiff tr s Hr). lia.
Qed.

(** Enough fuel gives the result: a run with 207223 coolings is a complete
    run, and the function returns the best tour of its last state. *)
Lemma simulatedAnnealing_returns fuel tour0 g s0 tr s :
  0 < size_int tour0 ->
  initial cities tour0 g = Some s0 ->
  reaches (size_int tour0) s0 tr s ->
  coolings tr = 207223%N ->
  length tr <= fuel ->
  simulatedAnnealing exp cities fuel tour0 g = Finished (bestTour s).
Proof.
  intros Hn Hi Hr Hc Hfuel. unfold simulatedAnnealing.
  destruct (size_int tour0 =? 0) eqn:Hn0; [apply Nat.eqb_eq in Hn0; lia|].
  rewrite Hi, (loop_reaches fuel _ s0 tr s Hr Hfuel), loop_stopped; [done|].
  destruct (initial_consistent _ _ _ _ Hi) as (_ & _ & _ & HT & _).
  by apply (reaches_coolings _ s0 tr s HT Hr).
Qed.

(** From a start without undefined behaviour the loop meets none: it
    finishes or it runs out of fuel. *)
Lemma loop_not_Undefined fuel n s :
  0 < n <= length (tour s) -> fits_int (tour s) -> consistent cities s ->
  loop fuel n s <> Undefined.
Proof.
  revert s. induction fuel as [|fuel IH]; intros s Hn Hfit Hc;
    [simpl; by destruct (running s)|].
  rewrite loop_S. destruct (running s); [|done].
  destruct (body_is_Some exp cities n s Hfit) as [[e s'] Hb];
    [destruct Hc as [-> _]; done|].
  rewrite Hb.
  destruct (body_length exp cities n s e s' Hb) as [Hlen _].
  apply IH.
  - by rewrite Hlen.
  - by eapply fits_int_length.
  - by eapply body_consistent.
Qed.

Lemma simulatedAnnealing_not_Undefined fuel tour0 g :
  tour0 <> [] -> fits_int tour0 -> is_Some (totalDistance tour0 cities) ->
  simulatedAnnealing exp cities fuel tour0 g <> Undefined.
Proof.
  intros Hne Hfit [d Hd]. unfold simulatedAnnealing.
  rewrite (size_int_fits _ Hfit).
  destruct tour0 as [|z tour0]; [done|]. simpl Nat.eqb. cbv iota.
  destruct (initial cities (z :: tour0) g) as [s0|] eqn:Hi;
    [|unfold initial in Hi; by rewrite Hd in Hi].
  destruct (initial_consistent _ _ _ _ Hi) as (Ht & _ & Hc & _).
  pose proof (loop_not_Undefined fuel (length (z :: tour0)) s0) as Hl.
  destruct (loop _ _ _); try done.
  intros _. apply Hl; try done; rewrite Ht; [simpl; lia | done].
Qed.

End RunFacts.

(** ** Bounds on costs *)

Section CostBounds.

Lemma euclideanDistance_diag c :
  finite_city c -> euclideanDistance c c = 0%float.
Proof.
  intros [Hx Hy]. unfold euclideanDistance.
  by rewrite (sub_diag _ Hx), (sub_diag _ Hy).
Qed.

(** Fewer than two cities: no edge, or one edge from a city to itself. *)
Lemma totalCost_small tour cities route :
  length tour <= 1 -> mapM (at_int cities) tour = Some route ->
  Forall finite_city route -> totalCost tour cities = Some 0%float.
Proof.
  intros Hlen Hroute Hfin. unfold totalCost. rewrite Hroute. simpl.
  apply mapM_Some, Forall2_length in Hroute.
  destruct route as [|c [|c' route]]; simpl in *; [done| |lia].
  apply Forall_inv in Hfin.
  by rewrite (euclideanDistance_diag c Hfin).
Qed.

Lemma euclideanDistance_nonneg a b :
  finite_city a -> finite_city b ->
  (0 <=? euclideanDistance a b)%float = true.
Proof.
  intros [Hax Hay] [Hbx Hby]. unfold euclideanDistance.
  apply sqrt_nonneg, add_nonneg; by apply mul_self_nonneg, sub_not_nan.
Qed.

Lemma at_int_elem_of {A} (v : list A) z a : at_int v z = Some a -> a ∈ v.
Proof.
  unfold at_int. destruct (z <? 0)%Z; [done|].
  intros H. apply list_elem_of_lookup. eauto.
Qed.

Lemma cyclic_pairs_elem_of {A} (l : list A) a b :
  (a, b) ∈ cyclic_pairs l -> a ∈ l /\ b ∈ l.
Proof.
  intros [i Hi]%list_elem_of_lookup. rewrite cyclic_pairs_lookup in Hi.
  destruct (l !! i) as [a'|] eqn:Ha; [simpl in Hi|done].
  destruct (l !! ((i + 1) mod length l)) as [b'|] eqn:Hb; [simpl in Hi|done].
  injection Hi as -> ->. split; apply list_elem_of_lookup; eauto.
Qed.

Lemma sum_nonneg (l : list (City * City)) acc :
  Forall (fun e => finite_city e.1 /\ finite_city e.2) l ->
  (0 <=? acc)%float = true ->
  (0 <=? foldl (fun acc e => acc + euclideanDistance e.1 e.2) acc l)%float
    = true.
Proof.
  intros Hl. revert acc.
  induction Hl as [|e l [He1 He2] _ IH]; intros acc Hacc; [done|].
  simpl. apply IH, add_nonneg; [done | by apply euclideanDistance_nonneg].
Qed.

(** With finite coordinates a cost is never a NaN and never below zero. *)
Lemma totalDistance_nonneg tour cities d :
  fits_int tour -> Forall finite_city cities ->
  totalDistance tour cities = Some d -> (0 <=? d)%float = true.
Proof.
  intros Hfit Hfin. rewrite totalDistance_totalCost by done.
  unfold totalCost.
  destruct (mapM (at_int cities) tour) as [route|] eqn:Hroute; [simpl|done].
  intros [= <-].
  assert (Forall finite_city route) as Hr.
  { rewrite Forall_forall in Hfin. apply Forall_forall.
    intros c [i Hc]%list_elem_of_lookup.
    apply mapM_Some in Hroute.
    destruct (Forall2_lookup_r _ _ _ _ _ Hroute Hc) as (z & _ & Hz).
    eapply Hfin, at_int_elem_of, Hz. }
  assert (Forall (fun e => finite_city e.1 /\ finite_city e.2)
                 (cyclic_pairs route)) as Hp.
  { rewrite Forall_forall in Hr. apply Forall_forall.
    intros [a b] [Ha Hb]%cyclic_pairs_elem_of. simpl. auto. }
  by apply sum_nonneg.
Qed.

End CostBounds.

(** ** A complete run on the square *)

Lemma on_exit_returns exp cities fuel tour0 g working best :
  on_exit exp cities fuel tour0 g = Some (working, best) ->
  simulatedAnnealing exp cities fuel tour0 g = Finished best.
Proof.
  unfold on_exit, simulatedAnnealing.
  destruct (size_int tour0 =? 0); [done|].
  destruct (initial cities tour0 g) as [s0|]; [simpl|done].
  destruct (loop exp cities fuel (size_int tour0) s0); [|done..].
  by intros [= _ <-].
Qed.

(** The loop is left after 207223 coolings, with a working tour that is not
    the best tour. *)
Lemma square_on_exit :
  on_exit exp_model square (N.to_nat 300000) [0; 2; 1; 3]%Z square_gen
    = Some ([2; 1; 0; 3]%Z, [0; 1; 2; 3]%Z).
Proof. vm_cast_no_check (eq_refl (Some ([2; 1; 0; 3]%Z, [0; 1; 2; 3]%Z))). Qed.

(** ** Symmetries of binary64 results *)

Section Binary64Symmetry.

Lemma binary_round_aux_opp s m e l :
  binary_round_aux prec emax (negb s) m e l
  = SFopp (binary_round_aux prec emax s m e l).
Proof.
  unfold binary_round_aux.
  destruct (shr_fexp prec emax m e l) as [mrs' e'].
  destruct (shr_fexp prec emax _ e' loc_Exact) as [mrs'' e''].
  destruct (shr_m mrs'') as [|p|p]; [done| |done].
  by destruct (_ <=? _)%Z.
Qed.

Lemma binary_normalize_opp m e :
  m <> 0%Z ->
  binary_normalize prec emax (- m) e false
  = SFopp (binary_normalize prec emax m e false).
Proof.
  intros Hm. unfold binary_normalize, binary_round.
  destruct m as [|p|p]; [done|..]; simpl;
    destruct (shl_align _ _ _) as [mz ez].
  - apply (binary_round_aux_opp false).
  - rewrite (binary_round_aux_opp false).
    by destruct (binary_round_aux _ _ false _ _ _) as [[]|[]| |[]].
Qed.

(** Subtraction with its operands exchanged gives the opposite value, or
    the same one (a zero of two equal operands, a NaN). *)
Lemma SFsub_swap a b :
  SFsub prec emax b a = SFopp (SFsub prec emax a b) \/
  SFsub prec emax b a = SFsub prec emax a b.
Proof.
  destruct a as [sa|sa| |sa ma ea], b as [sb|sb| |sb mb eb]; simpl;
    try (destruct sa, sb; auto; fail); auto.
  rewrite (Z.min_comm eb ea).
  set (A := cond_Zopp sa _). set (B := cond_Zopp sb _).
  destruct (Z.eq_dec (A - B)%Z 0%Z) as [H0|Hne].
  - right. replace (B - A)%Z with 0%Z by lia. by rewrite H0.
  - left. replace (B - A)%Z with (- (A - B))%Z by lia.
    by apply binary_normalize_opp.
Qed.

Lemma SFmul_opp_opp a :
  SFmul prec emax (SFopp a) (SFopp a) = SFmul prec emax a a.
Proof. by destruct a as [[]|[]| |[] m e]. Qed.

Lemma sub_square_swap u v :
  ((u - v) * (u - v))%float = ((v - u) * (v - u))%float.
Proof.
  apply Prim2SF_inj. rewrite !mul_spec, !sub_spec.
  unfold SF64mul, SF64sub.
  destruct (SFsub_swap (Prim2SF v) (Prim2SF u)) as [-> | ->];
    [by rewrite SFmul_opp_opp | done].
Qed.

End Binary64Symmetry.


(** ** The readers *)

Section ReaderFacts.
Variable read_city : string -> option City.
Variable read_solution : string -> option (string * double).


(** The loop of [parseTSPFile] from any of its states. *)
Lemma parse_lines_spec flag cities lines :
  parse_lines read_city flag cities lines =
    cities ++
    omap read_city
      (filter (fun line => ¬ section_line line)
         (if flag then before end_line lines
          else after section_line (before end_line lines))).
Proof.
  revert flag cities.
  induction lines as [|line rest IH]; intros flag cities.
  - simpl. destruct flag; by rewrite app_nil_r.
  - cbn [parse_lines before].
    destruct (find "NODE_COORD_SECTION" line) eqn:Hs.
    + assert (section_line line = true) as Hsl
        by (unfold section_line; by rewrite Hs).
      assert (end_line line = false) as ->
        by (unfold end_line; by rewrite Hsl).
      rewrite IH. destruct flag; cbn [after]; rewrite ?Hsl; [|done].
      rewrite filter_cons_False; [done|].
      rewrite Hsl. by intros H; apply H.
    + assert (section_line line = false) as Hsl
        by (unfold section_line; by rewrite Hs).
      destruct (find "EOF" line) eqn:He.
      * assert (end_line line = true) as ->
          by (unfold end_line; by rewrite Hsl, He).
        destruct flag; by rewrite app_nil_r.
      * assert (end_line line = false) as ->
          by (unfold end_line; by rewrite Hsl, He).
        destruct flag; cbn [after]; rewrite ?Hsl; [|by rewrite IH].
        rewrite filter_cons_True by (rewrite Hsl; by intros H).
        simpl. destruct (read_city line) as [city|]; rewrite IH; [|done].
        by rewrite <- app_assoc.
Qed.

Lemma before_app_stop {A} (stop : A -> bool) pre a post :
  stop a = true -> before stop (pre ++ a :: post) = before stop pre.
Proof.
  intros Ha. induction pre as [|b pre IH]; simpl; [by rewrite Ha|].
  destruct (stop b); [done | by rewrite IH].
Qed.

Lemma after_none {A} (start : A -> bool) l :
  Forall (fun a => start a = false) l -> after start l = [].
Proof. induction 1 as [|a l Ha _ IH]; simpl; [done | by rewrite Ha]. Qed.

Lemma before_sublist {A} (stop : A -> bool) l a :
  a ∈ before stop l -> a ∈ l.
Proof.
  induction l as [|b l IH]; simpl; [done|].
  destruct (stop b); [by intros ?%elem_of_nil|].
  intros [->|H]%elem_of_cons; [left | right; auto].
Qed.

(** *** Names without extension *)

Lemma prefix_dot c s :
  String.prefix "." (String c s) = bool_decide (c = "."%char).
Proof.
  assert (substring 0 0 s = EmptyString) as Hs by (by destruct s).
  destruct (String.prefix "." (String c s)) eqn:Hp.
  - apply String.prefix_correct in Hp. simpl in Hp. rewrite Hs in Hp.
    injection Hp as ->. by rewrite bool_decide_eq_true_2.
  - case_bool_decide as Hc; [|done]. subst c. rewrite <- Hp.
    apply String.prefix_correct. simpl. by rewrite Hs.
Qed.

Lemma find_dot_cons c s :
  find "." (String c s) =
    if decide (c = "."%char) then Some 0%nat else S <$> find "." s.
Proof.
  unfold find. cbn [String.index]. rewrite prefix_dot.
  destruct (decide (c = "."%char)) as [->|Hc].
  - by rewrite bool_decide_eq_true_2.
  - rewrite bool_decide_eq_false_2 by done.
    by destruct (String.index 0 "." s).
Qed.

Lemma strip_extension_dotless filename : dotless (strip_extension filename).
Proof.
  unfold dotless, strip_extension.
  induction filename as [|c s IH]; [done|].
  rewrite find_dot_cons. destruct (decide (c = "."%char)) as [->|Hc].
  - done.
  - destruct (find "." s) as [p|] eqn:Hs; simpl.
    + rewrite find_dot_cons, decide_False by done. by rewrite IH.
    + by rewrite find_dot_cons, decide_False, Hs.
Qed.

(** *** The solutions map *)

Lemma add_solution_lookup m line name :
  add_solution read_solution m line !! name =
    match answers read_solution name [line] with
    | v :: _ => Some v
    | [] => m !! name
    end.
Proof.
  unfold add_solution, answers. simpl.
  destruct (read_solution line) as [[filename v]|]; simpl; [|done].
  destruct (decide (strip_extension filename = name)) as [->|Hne]; simpl.
  - by rewrite lookup_insert_eq.
  - by rewrite lookup_insert_ne.
Qed.

Lemma foldl_add_solution_lookup m lines name :
  foldl (add_solution read_solution) m lines !! name =
    match last (answers read_solution name lines) with
    | Some v => Some v
    | None => m !! name
    end.
Proof.
  induction lines as [|line lines IH] using rev_ind; [done|].
  rewrite foldl_app. simpl. rewrite add_solution_lookup, IH.
  unfold answers. rewrite omap_app.
  fold (answers read_solution name lines). fold (answers read_solution name [line]).
  destruct (answers read_solution name [line]) as [|v [|]] eqn:Hl.
  - by rewrite app_nil_r.
  - by rewrite last_snoc.
  - unfold answers in Hl. simpl in Hl.
    by destruct (_ ≫= _) in Hl.
Qed.

Lemma readSolutions_lookup_last lines name :
  readSolutions read_solution (Some lines) !! name = last (answers read_solution name lines).
Proof.
  unfold readSolutions. rewrite foldl_add_solution_lookup, lookup_empty.
  by destruct (last _).
Qed.

Lemma readSolutions_lookup_Some file name v :
  readSolutions read_solution file !! name = Some v ->
  dotless name /\
  exists lines line filename,
    file = Some lines /\ line ∈ lines /\
    read_solution line = Some (filename, v) /\
    strip_extension filename = name.
Proof.
  destruct file as [lines|]; [|done].
  rewrite readSolutions_lookup_last. intros Hl.
  apply last_Some_elem_of in Hl.
  apply list_elem_of_omap in Hl as (line & Hin & Hline).
  destruct (read_solution line) as [[filename w]|] eqn:Hr; [|done].
  simpl in Hline.
  destruct (decide (strip_extension filename = name)) as [<-|]; [|done].
  injection Hline as ->.
  split; [apply strip_extension_dotless|].
  by exists lines, line, filename.
Qed.

End ReaderFacts.


(** ** Results of runs *)

Lemma at_int_is_Some {A} (v : list A) z :
  is_Some (at_int v z) <-> (0 <= z < Z.of_nat (length v))%Z.
Proof.
  unfold at_int. destruct (z <? 0)%Z eqn:Hz.
  - apply Z.ltb_lt in Hz. split; [by intros [? ?] | lia].
  - apply Z.ltb_ge in Hz. rewrite lookup_lt_is_Some. lia.
Qed.

Section ResultFacts.
Variable exp : double -> double.
Variable cities : list City.


(** What a returned result comes from. *)
Lemma simulatedAnnealing_Finished fuel tour0 g t :
  simulatedAnnealing exp cities fuel tour0 g = Finished t ->
  exists s0 tr s,
    0 < size_int tour0 <= length tour0 /\
    initial cities tour0 g = Some s0 /\
    reaches exp cities (size_int tour0) s0 tr s /\
    running s = false /\ t = bestTour s.
Proof.
  unfold simulatedAnnealing.
  destruct (size_int tour0 =? 0) eqn:Hn; [done|].
  destruct (initial cities tour0 g) as [s0|] eqn:Hi; [|done].
  destruct (loop exp cities fuel (size_int tour0) s0) as [s| |] eqn:Hl; [|done..].
  intros [= <-].
  destruct (loop_Finished exp cities _ _ _ _ Hl) as (tr & Hr & Hstop).
  exists s0, tr, s. apply Nat.eqb_neq in Hn.
  pose proof (size_int_le tour0). repeat split; try done; lia.
Qed.

(** The best tour is a rearrangement of the tour the run started from. *)
Lemma reaches_bestTour_Permutation n s0 tr s :
  0 < n <= length (tour s0) -> bestTour s0 ≡ₚ tour s0 ->
  reaches exp cities n s0 tr s -> bestTour s ≡ₚ tour s0.
Proof.
  intros Hn H0 Hr. induction Hr as [|tr s e s' Hr IH _ Hb]; [done|].
  destruct (reaches_invariants exp cities n s0 tr s Hn Hr) as [Hp _].
  assert (0 < n <= length (tour s)) as Hn'
    by (by rewrite (Permutation_length Hp)).
  destruct (drawn n (gen s)) as [[i j] g2] eqn:Hd.
  destruct (body_cases exp cities n s e s' Hb i j g2 Hd)
    as [(_ & _ & (_ & _ & -> & _) & _)|(Hij & nd & _ & _ & _ & _ & Hs)];
    [done|].
  pose proof (drawn_in_range n s i j g2 Hn' Hd Hij) as Hrange.
  simpl in Hs. destruct (accept _ _ _ _).1.
  - destruct Hs as (_ & _ & Hs).
    destruct (nd <? bestDistance s)%float; destruct Hs as (-> & _); [|done].
    rewrite std_reverse_Permutation by lia. done.
  - by destruct Hs as (_ & _ & -> & _).
Qed.

(** No pass writes to a position from [n - 1] on: the ranges reversed end
    before the larger of the two drawn positions. *)
Lemma reaches_fixed_positions n s0 tr s k :
  0 < n <= length (tour s0) -> n - 1 <= k ->
  reaches exp cities n s0 tr s ->
  tour s !! k = tour s0 !! k /\
  (bestTour s0 !! k = tour s0 !! k -> bestTour s !! k = tour s0 !! k).
Proof.
  intros Hn Hk Hr. induction Hr as [|tr s e s' Hr [IHt IHb] _ Hb]; [done|].
  destruct (reaches_invariants exp cities n s0 tr s Hn Hr) as [Hp _].
  assert (0 < n <= length (tour s)) as Hn'
    by (by rewrite (Permutation_length Hp)).
  destruct (drawn n (gen s)) as [[i j] g2] eqn:Hd.
  destruct (body_cases exp cities n s e s' Hb i j g2 Hd)
    as [(_ & _ & (-> & _ & -> & _) & _)|(Hij & nd & _ & _ & _ & _ & Hs)];
    [done|].
  pose proof (drawn_in_range n s i j g2 Hn' Hd Hij) as Hrange.
  destruct (drawn_lt n _ _ _ _ (proj1 Hn) Hd) as [Hi Hj].
  assert (std_reverse (tour s) (i `min` j) (i `max` j) !! k = tour s0 !! k)
    as Hcand.
  { rewrite std_reverse_lookup by lia. case_decide; [lia | done]. }
  simpl in Hs. destruct (accept _ _ _ _).1.
  - destruct Hs as (-> & _ & Hs). split; [done|].
    destruct (nd <? bestDistance s)%float; destruct Hs as (-> & _); auto.
  - destruct Hs as (-> & _ & -> & _).
    rewrite std_reverse_involutive by lia. done.
Qed.

(** With two positions to draw from, every range reversed has one element:
    the tour is never changed. *)
Lemma reaches_two n s0 tr s :
  n = 2 -> reaches exp cities n s0 tr s ->
  tour s = tour s0 /\ (bestTour s0 = tour s0 -> bestTour s = tour s0).
Proof.
  intros -> Hr. induction Hr as [|tr s e s' Hr [IHt IHb] _ Hb]; [done|].
  destruct (drawn 2 (gen s)) as [[i j] g2] eqn:Hd.
  destruct (body_cases exp cities 2 s e s' Hb i j g2 Hd)
    as [(_ & _ & (-> & _ & -> & _) & _)|(Hij & nd & _ & _ & _ & _ & Hs)];
    [done|].
  destruct (drawn_lt 2 _ _ _ _ ltac:(lia) Hd) as [Hi Hj].
  simpl in Hs.
  rewrite !(std_reverse_short (tour s)) in Hs by lia.
  destruct (accept _ _ _ _).1.
  - destruct Hs as (-> & _ & Hs). split; [done|].
    destruct (nd <? bestDistance s)%float; destruct Hs as (-> & _); auto.
  - by destruct Hs as (-> & _ & -> & _).
Qed.

(** The cost of the result against the cost of the start. *)
Lemma simulatedAnnealing_cost fuel tour0 g t :
  simulatedAnnealing exp cities fuel tour0 g = Finished t ->
  exists d0 d,
    totalDistance tour0 cities = Some d0 /\
    totalDistance t cities = Some d /\
    (d = d0 \/ (d <? d0)%float = true).
Proof.
  intros (s0 & tr & s & Hn & Hi & Hr & _ & ->)%simulatedAnnealing_Finished.
  destruct (initial_consistent _ _ _ _ Hi) as (Ht & Hbt & [Hc Hb] & _).
  destruct (reaches_invariants exp cities (size_int tour0) s0 tr s)
    as [_ Hinv]; [by rewrite Ht | done |].
  destruct Hinv as [_ Hbest]; [done|].
  exists (bestDistance s0), (bestDistance s).
  rewrite <- Hbt. split; [done|]. split; [done|].
  by apply (reaches_best_decreases exp cities (size_int tour0) s0 tr s).
Qed.

(** A run that is out of fuel made as many passes as it had fuel. *)
Lemma loop_OutOfFuel fuel n s :
  loop exp cities fuel n s = OutOfFuel ->
  exists tr s',
    reaches exp cities n s tr s' /\ length tr = fuel /\ running s' = true.
Proof.
  revert s. induction fuel as [|fuel IH]; intros s.
  - simpl. destruct (running s) eqn:Hrun; [|done].
    intros _. exists [], s. split; [constructor | done].
  - rewrite loop_S. destruct (running s) eqn:Hrun; [|done].
    destruct (body exp cities n s) as [[e s1]|] eqn:Hb; [|done].
    intros (tr & s' & Hr & Hlen & Hrun')%IH.
    exists (e :: tr), s'. split; [by eapply reaches_first|].
    split; [simpl; lia | done].
Qed.

(** One city: the loop never cools. *)
Lemma simulatedAnnealing_single fuel z g :
  is_Some (at_int cities z) ->
  simulatedAnnealing exp cities fuel [z] g = OutOfFuel.
Proof.
  intros [c Hc].
  unfold simulatedAnnealing, initial, totalDistance.
  change (size_int [z]) with 1. simpl. unfold add_edge. simpl.
  rewrite Hc. simpl. by rewrite loop_single.
Qed.

End ResultFacts.

(** *** Passes, coolings and redraws *)

Lemma length_coolings_redraws tr :
  N.of_nat (length tr) = (coolings tr + redraws tr)%N.
Proof.
  unfold coolings, redraws. induction tr as [|e tr IH]; [done|].
  cbn [length foldr]. rewrite Nat2N.inj_succ, IH. destruct e; simpl; lia.
Qed.

Lemma size_int_pos (tour0 : list Z) :
  tour0 <> [] -> fits_int tour0 -> 0 < size_int tour0 <= length tour0.
Proof.
  intros Hne Hfit. rewrite size_int_fits by done.
  destruct tour0; [done | simpl; lia].
Qed.


(** ** The program *)

Lemma simulatedAnnealing_Permutation exp cities fuel (tour0 : list Z) g t :
  simulatedAnnealing exp cities fuel tour0 g = Finished t -> t ≡ₚ tour0.
Proof.
  intros (s0 & tr & s & Hn & Hi & Hr & _ & ->)%simulatedAnnealing_Finished.
  destruct (initial_consistent _ _ _ _ Hi) as (Ht & Hbt & _).
  rewrite <- Ht.
  apply (reaches_bestTour_Permutation exp cities (size_int tour0) s0 tr s);
    [by rewrite Ht | by rewrite Hbt, Ht | done].
Qed.

Lemma wrap_int_small z : (0 <= z < 2147483648)%Z -> wrap_int z = z.
Proof. intros Hz. unfold wrap_int. rewrite Z.mod_small; lia. Qed.

Lemma positions_fits (cities : list City) :
  fits_int cities -> positions cities = Z.of_nat <$> seq 0 (length cities).
Proof.
  intros Hfit. unfold positions. apply list_fmap_ext.
  intros i k Hk%lookup_seq. apply wrap_int_small.
  unfold fits_int in Hfit. lia.
Qed.

Lemma length_positions (cities : list City) :
  length (positions cities) = length cities.
Proof. unfold positions. by rewrite length_fmap, length_seq. Qed.

Lemma positions_in_range (cities : list City) :
  fits_int cities ->
  Forall (fun z => (0 <= z < Z.of_nat (length cities))%Z) (positions cities).
Proof.
  intros Hfit. rewrite positions_fits by done.
  apply Forall_fmap, Forall_forall. intros k Hk%elem_of_seq. simpl. lia.
Qed.

(** The label printed for an entry of the tour. *)
Lemma labels_Some cities t ids :
  labels cities t = Some ids ->
  ids = (fun z => from_option index 0%Z (at_int cities z)) <$> t.
Proof.
  unfold labels. intros H%mapM_Some.
  induction H as [|z id t ids Hz _ IH]; [done|].
  rewrite fmap_cons, <- IH. f_equal.
  by destruct (at_int cities z); simplify_eq/=.
Qed.

Lemma labels_is_Some cities t :
  Forall (fun z => (0 <= z < Z.of_nat (length cities))%Z) t ->
  is_Some (labels cities t).
Proof.
  intros H. unfold labels. apply mapM_is_Some.
  eapply Forall_impl; [exact H|]. intros z Hz%at_int_is_Some.
  by apply fmap_is_Some.
Qed.

Lemma labels_positions (cities : list City) :
  fits_int cities ->
  (fun z => from_option index 0%Z (at_int cities z)) <$> positions cities
    = index <$> cities.
Proof.
  intros Hfit. rewrite positions_fits by done.
  apply list_eq. intros i. rewrite <- list_fmap_compose, !list_lookup_fmap.
  destruct (decide (i < length cities)) as [Hi|Hi].
  - rewrite lookup_seq_lt by done. simpl. unfold at_int.
    destruct (Z.of_nat i <? 0)%Z eqn:Hneg; [apply Z.ltb_lt in Hneg; lia|].
    rewrite Nat2Z.id.
    by destruct (lookup_lt_is_Some_2 cities i Hi) as [c ->].
  - rewrite lookup_seq_ge by lia.
    by rewrite lookup_ge_None_2 by lia.
Qed.

Section MainFacts.
Variable exp : double -> double.
Variable read_city : string -> option City.
Variable read_solution : string -> option (string * double).
Variable shuffle : list Z -> list Z.
Variable stem : string -> string.
Variable open : string -> option (list string).
Hypothesis shuffle_Permutation : forall l, shuffle l ≡ₚ l.

(** The tour [main] hands to the engine. *)
Lemma shuffled_positions (cities : list City) :
  cities <> [] -> fits_int cities ->
  shuffle (positions cities) <> [] /\
  fits_int (shuffle (positions cities)) /\
  Forall (fun z => (0 <= z < Z.of_nat (length cities))%Z)
         (shuffle (positions cities)).
Proof.
  intros Hne Hfit.
  pose proof (shuffle_Permutation (positions cities)) as Hp.
  assert (length (shuffle (positions cities)) = length cities) as Hlen
    by (by rewrite Hp, length_positions).
  split; [|split].
  - intros H0. rewrite H0 in Hlen. by destruct cities.
  - unfold fits_int in *. by rewrite Hlen.
  - rewrite Hp. by apply positions_in_range.
Qed.

(** [main] on a valid selection is the rest of [main] on the selected
    file. *)
Lemma main_selected fuel tspFiles choice solutions g selectedFile :
  (1 <= choice)%N ->
  tspFiles !! (N.to_nat choice - 1) = Some selectedFile ->
  main exp read_city read_solution shuffle stem open
       fuel tspFiles choice solutions g
  = report exp read_city read_solution shuffle stem open
       fuel selectedFile solutions g.
Proof.
  intros Hc Hl. unfold main.
  pose proof (lookup_lt_Some _ _ _ Hl) as Hlt.
  destruct tspFiles as [|f fs]; [done|].
  destruct (choice <? 1)%N eqn:H1; [apply N.ltb_lt in H1; lia|].
  destruct (N.of_nat (length (f :: fs)) <? choice)%N eqn:H2;
    [apply N.ltb_lt in H2; lia|].
  simpl orb. cbv iota. by rewrite Hl.
Qed.

(** In every other case [main] returns 1. *)
Lemma main_cases fuel tspFiles choice solutions g :
  main exp read_city read_solution shuffle stem open
       fuel tspFiles choice solutions g = Finished Return1 \/
  exists selectedFile,
    (1 <= choice)%N /\
    tspFiles !! (N.to_nat choice - 1) = Some selectedFile.
Proof.
  unfold main. destruct tspFiles as [|f fs]; [by left|].
  destruct (choice <? 1)%N eqn:H1; [by left|].
  destruct (N.of_nat (length (f :: fs)) <? choice)%N eqn:H2; [by left|].
  apply N.ltb_ge in H1, H2. right.
  destruct (lookup_lt_is_Some_2 (f :: fs) (N.to_nat choice - 1))
    as [selectedFile Hl]; [lia|].
  by exists selectedFile.
Qed.

(** What the rest of [main] does on a file that gives cities. *)
Lemma report_cases fuel selectedFile solutions g :
  let cities := parseTSPFile read_city (open selectedFile) in
  let tour0 := shuffle (positions cities) in
  cities <> [] -> fits_int cities ->
  report exp read_city read_solution shuffle stem open
         fuel selectedFile solutions g = OutOfFuel \/
  exists d0 t d ids,
    totalDistance tour0 cities = Some d0 /\
    simulatedAnnealing exp cities fuel tour0 g = Finished t /\
    totalDistance t cities = Some d /\
    labels cities t = Some ids /\
    report exp read_city read_solution shuffle stem open
           fuel selectedFile solutions g =
      Finished (Return0
        {| initial_distance := d0; final_distance := d;
           printed_tour := ids;
           correct_answer :=
             readSolutions read_solution solutions !! stem selectedFile |}).
Proof.
  intros cities tour0 Hne Hfit.
  destruct (shuffled_positions cities Hne Hfit) as (Hne0 & Hfit0 & Hin0).
  fold tour0 in Hne0, Hfit0, Hin0.
  assert (forall t, fits_int t ->
            Forall (fun z => (0 <= z < Z.of_nat (length cities))%Z) t ->
            is_Some (totalDistance t cities)) as Hdef.
  { intros t Hfit' Hin. apply totalDistance_is_Some_iff; [done|].
    eapply Forall_impl; [exact Hin|]. intros z. apply at_int_is_Some. }
  destruct (Hdef tour0 Hfit0 Hin0) as [d0 Hd0].
  pose proof (simulatedAnnealing_not_Undefined exp cities fuel tour0 g
                Hne0 Hfit0 (Hdef tour0 Hfit0 Hin0)) as Hnu.
  unfold report. fold cities. fold tour0.
  destruct cities as [|c cs] eqn:Hc; [done|]. rewrite <- Hc in *.
  rewrite Hd0.
  destruct (simulatedAnnealing exp cities fuel tour0 g) as [t| |] eqn:Hs;
    [|done|by left].
  right.
  pose proof (simulatedAnnealing_Permutation _ _ _ _ _ _ Hs) as Hp.
  assert (Forall (fun z => (0 <= z < Z.of_nat (length cities))%Z) t) as Hin
    by (by rewrite Hp).
  assert (fits_int t) as Hfit'
    by (eapply fits_int_length; [|exact Hfit0]; by rewrite Hp).
  destruct (Hdef t Hfit' Hin) as [d Hd].
  destruct (labels_is_Some cities t Hin) as [ids Hids].
  exists d0, t, d, ids. by rewrite Hd, Hids.
Qed.

Lemma report_empty fuel selectedFile solutions g :
  parseTSPFile read_city (open selectedFile) = [] ->
  report exp read_city read_solution shuffle stem open
         fuel selectedFile solutions g = Finished Return1.
Proof. intros H. unfold report. by rewrite H. Qed.

Lemma report_returns fuel selectedFile solutions g cities tour0 d0 t d ids :
  parseTSPFile read_city (open selectedFile) = cities -> cities <> [] ->
  shuffle (positions cities) = tour0 ->
  totalDistance tour0 cities = Some d0 ->
  simulatedAnnealing exp cities fuel tour0 g = Finished t ->
  totalDistance t cities = Some d ->
  labels cities t = Some ids ->
  report exp read_city read_solution shuffle stem open
         fuel selectedFile solutions g =
    Finished (Return0
      {| initial_distance := d0; final_distance := d;
         printed_tour := ids;
         correct_answer :=
           readSolutions read_solution solutions !! stem selectedFile |}).
Proof.
  intros Hc Hne Ht Hd0 Hs Hd Hids. unfold report.
  rewrite Hc, Ht, Hd0, Hs, Hd, Hids. by destruct cities.
Qed.

Lemma report_single fuel selectedFile solutions g c :
  parseTSPFile read_city (open selectedFile) = [c] ->
  report exp read_city read_solution shuffle stem open
         fuel selectedFile solutions g = OutOfFuel.
Proof.
  intros Hc. unfold report. rewrite Hc.
  change (positions [c]) with [0%Z].
  pose proof (shuffle_Permutation [0%Z]) as Hp.
  apply Permutation_singleton_r in Hp. rewrite Hp.
  rewrite (simulatedAnnealing_single exp [c] fuel 0%Z g) by (by eexists).
  by destruct (totalDistance [0%Z] [c]) eqn:Hd.
Qed.

End MainFacts.

Lemma swap_middle_Permutation l : swap_middle l ≡ₚ l.
Proof.
  destruct l as [|a [|b [|c [|d [|e l]]]]]; try done.
  simpl. apply perm_skip, perm_swap.
Qed.

Lemma open_square_fits file :
  fits_int (parseTSPFile square_read_city (open_square file)).
Proof.
  unfold open_square.
  destruct (String.eqb file "square.tsp"); [by vm_compute|].
  destruct (String.eqb file "point.tsp"); by vm_compute.
Qed.

(** * The properties of the specification *)

(** ** The segment-reversal move *)

(** C1, as the code has it.  For every tour and every two positions [i], [j]
    of it, in either order, the move reverses the half-open index range from
    [min i j] up to, and not including, [max i j]: a position [k] of that
    range receives the element that was at [min i j + max i j - 1 - k], and
    every other position, [max i j] among them, keeps its element. *)
Theorem move_reverses_half_open (t : list Z) (i j : nat) :
  i < length t -> j < length t ->
  length (move t i j) = length t /\
  forall k,
    move t i j !! k =
      if decide (i `min` j <= k < i `max` j)
      then t !! (i `min` j + i `max` j - 1 - k)
      else t !! k.
Proof.
  intros Hi Hj. split; [apply length_move|].
  intros k. by apply move_lookup.
Qed.

(** On a tour of four, for the positions 3 and 1 as drawn. *)
Lemma move_reverses_half_open_witness :
  length (move [10; 20; 30; 40]%Z 3 1) = length [10; 20; 30; 40]%Z /\
  forall k,
    move [10; 20; 30; 40]%Z 3 1 !! k =
      if decide (3 `min` 1 <= k < 3 `max` 1)
      then [10; 20; 30; 40]%Z !! (3 `min` 1 + 3 `max` 1 - 1 - k)
      else [10; 20; 30; 40]%Z !! k.
Proof. apply (move_reverses_half_open [10; 20; 30; 40]%Z 3 1); simpl; lia. Defined.

(** C1 as the specification states it, with the inclusive range, fails: for
    the positions 0 and 2 of a tour of three, position 0 receives the element
    of position 1, not that of position 2. *)
Lemma move_not_inclusive :
  ~ (forall (t : list Z) (i j : nat),
       i <> j -> i < length t -> j < length t ->
       forall k,
         (i `min` j <= k <= i `max` j ->
          move t i j !! k = t !! (i `min` j + i `max` j - k)) /\
         (~ i `min` j <= k <= i `max` j -> move t i j !! k = t !! k)).
Proof.
  intros H.
  destruct (H [10; 20; 30]%Z 0 2) with (k := 0) as [Hin _]; simpl; try lia.
  simpl in Hin. discriminate Hin; lia.
Qed.

(** C9.  Reversing the same range twice restores the tour exactly, for every
    tour and every two positions [i < j] of it; and a pass that rejects its
    candidate leaves, by this second reversal, the working tour and its
    recorded cost as they were before the pass. *)
Theorem reversal_involution_rollback :
  (forall (t : list Z) (i j : nat),
     i < j < length t -> std_reverse (std_reverse t i j) i j = t) /\
  (forall exp cities n s i j candidate nd s',
     0 < n <= length (tour s) ->
     body exp cities n s = Some (Evaluated i j candidate nd false, s') ->
     candidate = std_reverse (tour s) i j /\
     tour s' = std_reverse candidate i j /\
     tour s' = tour s /\
     currentDistance s' = currentDistance s).
Proof.
  split.
  - intros t i j Hij. apply std_reverse_involutive. lia.
  - intros exp cities n s lo hi candidate nd s' Hn Hb.
    destruct (drawn n (gen s)) as [[i j] g2] eqn:Hd.
    destruct (body_cases exp cities n s _ s' Hb i j g2 Hd)
      as [(_ & [=] & _)|(Hij & nd' & _ & He & _ & _ & Hs)].
    pose proof (drawn_in_range n s i j g2 Hn Hd Hij) as Hr.
    simpl in He, Hs. injection He as -> -> -> -> Hacc.
    rewrite <- Hacc in Hs. destruct Hs as (Ht & Hc & _).
    repeat split; try done.
    rewrite Ht. apply std_reverse_involutive. lia.
Qed.

(** On a tour of four; and on the square, for a pass that proposes a longer
    tour and draws 0.99999 for the acceptance. *)
Lemma reversal_involution_rollback_witness :
  std_reverse (std_reverse [10; 20; 30; 40]%Z 1 3) 1 3 = [10; 20; 30; 40]%Z /\
  exists i j candidate nd s',
    body exp_model square 4 rejecting_state
      = Some (Evaluated i j candidate nd false, s') /\
    candidate = std_reverse (tour rejecting_state) i j /\
    tour s' = std_reverse candidate i j /\
    tour s' = tour rejecting_state /\
    currentDistance s' = currentDistance rejecting_state.
Proof.
  split.
  - apply (proj1 reversal_involution_rollback). simpl. lia.
  - destruct (body exp_model square 4 rejecting_state)
      as [[[i|i j candidate nd [|]] s']|] eqn:Hb;
      try (exfalso; by vm_compute in Hb).
    exists i, j, candidate, nd, s'. split; [done|].
    apply (proj2 reversal_involution_rollback exp_model square 4
             rejecting_state i j candidate nd s'); [simpl; lia | exact Hb].
Defined.

(** C3, at the input on which the code departs from it.  When the two drawn
    positions are adjacent, the pass is not skipped: the engine evaluates a
    candidate, the candidate is the current tour itself, and the temperature
    is cooled.  (For positions two or more apart the candidate of a tour
    without repetition does differ, lemma [std_reverse_changes].) *)
Theorem adjacent_draw_evaluates_current_tour
    exp cities n s i j g2 e s' :
  drawn n (gen s) = (i, j, g2) -> j = S i \/ i = S j ->
  body exp cities n s = Some (e, s') ->
  exists nd acc,
    e = Evaluated (i `min` j) (i `max` j) (tour s) nd acc /\
    tour s' = tour s /\
    T s' = (T s * coolingRate)%float.
Proof.
  intros Hd Hadj Hb.
  destruct (body_adjacent exp cities n s i j g2 e s' Hd Hadj Hb)
    as (nd & acc & He & Ht).
  exists nd, acc. repeat split; try done.
  destruct (body_cases exp cities n s e s' Hb i j g2 Hd)
    as [(-> & _)|(_ & ? & _ & _ & HT & _)]; [lia | done].
Qed.

(** On the square, for the tour [0; 1; 2; 3] and the draws 0 and 1. *)
Lemma adjacent_draw_evaluates_current_tour_witness :
  exists e s',
    body exp_model square 4 adjacent_state = Some (e, s') /\
    exists nd acc,
      e = Evaluated (0 `min` 1) (0 `max` 1) (tour adjacent_state) nd acc /\
      tour s' = tour adjacent_state /\
      T s' = (T adjacent_state * coolingRate)%float.
Proof.
  destruct (body exp_model square 4 adjacent_state) as [[e s']|] eqn:Hb;
    [|by vm_compute in Hb].
  exists e, s'. split; [done|].
  eapply (adjacent_draw_evaluates_current_tour
            exp_model square 4 adjacent_state 0 1);
    [vm_compute; reflexivity | by left | exact Hb].
Defined.

(** ** The acceptance rule *)

(** C4.  In a pass that evaluates a candidate of cost [nd], with
    [delta = nd - currentDistance] and the temperature [T]: if [delta < 0]
    the candidate is accepted and the engine is not consulted; otherwise, and
    so whenever [0 <= delta], it is accepted exactly when
    [exp (- delta / T) > u] for [u] the next output of the engine after the
    two positions.  Accepting makes the candidate the current tour and its
    cost the current cost; rejecting keeps the current cost. *)
Theorem acceptance_rule exp cities n s i j candidate nd acc s' :
  body exp cities n s = Some (Evaluated i j candidate nd acc, s') ->
  let g2 := (drawn n (gen s)).2 in
  let delta := (nd - currentDistance s)%float in
  let u := (realDist g2).1 in
  ((delta <? 0)%float = true -> acc = true /\ gen s' = g2) /\
  ((delta <? 0)%float = false ->
     acc = (u <? exp (- delta / T s))%float /\ gen s' = (realDist g2).2) /\
  ((0 <=? delta)%float = true -> acc = (u <? exp (- delta / T s))%float) /\
  (acc = true -> tour s' = candidate /\ currentDistance s' = nd) /\
  (acc = false -> currentDistance s' = currentDistance s).
Proof.
  intros Hb.
  destruct (drawn n (gen s)) as [[i0 j0] g2] eqn:Hd.
  destruct (body_cases exp cities n s _ s' Hb i0 j0 g2 Hd)
    as [(_ & [=] & _)|(Hij & nd' & _ & He & _ & Hg & Hs)].
  simpl in *. injection He as -> -> -> Hnd ->. subst nd'.
  revert Hg Hs. unfold accept.
  destruct (nd - currentDistance s <? 0)%float eqn:Hneg; simpl.
  - intros -> (-> & -> & _). repeat split; try done.
    intros Hle%leb_zero_ltb. congruence.
  - intros -> Hs.
    destruct (_ <? exp _)%float; repeat split; try done;
      by destruct Hs as (? & ? & _).
Qed.

(** On the square, for the first pass from the tour [0; 2; 1; 3]. *)
Lemma acceptance_rule_witness :
  exists i j candidate nd acc s' s0,
    initial square [0; 2; 1; 3]%Z square_gen = Some s0 /\
    body exp_model square 4 s0 = Some (Evaluated i j candidate nd acc, s') /\
    let g2 := (drawn 4 (gen s0)).2 in
    let delta := (nd - currentDistance s0)%float in
    let u := (realDist g2).1 in
    ((delta <? 0)%float = true -> acc = true /\ gen s' = g2) /\
    ((delta <? 0)%float = false ->
       acc = (u <? exp_model (- delta / T s0))%float /\
       gen s' = (realDist g2).2) /\
    ((0 <=? delta)%float = true ->
       acc = (u <? exp_model (- delta / T s0))%float) /\
    (acc = true -> tour s' = candidate /\ currentDistance s' = nd) /\
    (acc = false -> currentDistance s' = currentDistance s0).
Proof.
  destruct (initial square [0; 2; 1; 3]%Z square_gen) as [s0|] eqn:Hi;
    [|by vm_compute in Hi].
  destruct (body exp_model square 4 s0) as [[[i|i j candidate nd acc] s']|]
    eqn:Hb.
  - exfalso. vm_compute in Hi. injection Hi as <-. by vm_compute in Hb.
  - exists i, j, candidate, nd, acc, s', s0. split; [done|]. split; [done|].
    exact (acceptance_rule exp_model square 4 s0 i j candidate nd acc s' Hb).
  - exfalso. vm_compute in Hi. injection Hi as <-. by vm_compute in Hb.
Defined.

(** ** The cost of a tour *)

(** C5.  For a tour whose size an [int] holds and whose entries index the
    cities of [route], in this order: [totalDistance] is the sum, from 0.0 and
    from the first position on, of the Euclidean distance over the pairs of
    the cyclic order.  There are as many pairs as positions; the pair of
    position [i] joins the cities at [i] and at [(i + 1) mod n], so the pair of
    the last position joins the last city to the first.  For a tour of at most
    one city, with finite coordinates, the result is 0. *)
Theorem totalDistance_cyclic_sum tour cities route :
  fits_int tour ->
  mapM (at_int cities) tour = Some route ->
  totalDistance tour cities =
    Some (foldl (fun acc e => (acc + euclideanDistance e.1 e.2)%float)
                0%float (cyclic_pairs route)) /\
  length (cyclic_pairs route) = length tour /\
  (forall i, i < length tour ->
     exists a b, route !! i = Some a /\
                 route !! ((i + 1) mod length tour) = Some b /\
                 cyclic_pairs route !! i = Some (a, b)) /\
  (length tour <= 1 -> Forall finite_city route ->
     totalDistance tour cities = Some 0%float).
Proof.
  intros Hfit Hroute.
  pose proof Hroute as Hlen. apply mapM_Some, Forall2_length in Hlen.
  rewrite totalDistance_totalCost by done.
  repeat split.
  - unfold totalCost. by rewrite Hroute.
  - by rewrite length_cyclic_pairs.
  - intros i Hi. rewrite cyclic_pairs_lookup, <- Hlen.
    destruct (lookup_lt_is_Some_2 route i) as [a Ha]; [lia|].
    destruct (lookup_lt_is_Some_2 route ((i + 1) mod length tour))
      as [b Hb]; [rewrite <- Hlen; apply Nat.mod_upper_bound; lia|].
    exists a, b. by rewrite Ha, Hb.
  - intros Hsmall Hfin. by eapply totalCost_small.
Qed.

(** On the square, for a tour of its four cities and for a tour of one. *)
Lemma totalDistance_cyclic_sum_witness :
  (totalDistance [0; 2; 1; 3]%Z square =
     Some (foldl (fun acc e => (acc + euclideanDistance e.1 e.2)%float)
                 0%float (cyclic_pairs (square_route [0; 2; 1; 3]))) /\
   length (cyclic_pairs (square_route [0; 2; 1; 3]))
     = length [0; 2; 1; 3]%Z /\
   (forall i, i < length [0; 2; 1; 3]%Z ->
      exists a b, square_route [0; 2; 1; 3] !! i = Some a /\
                  square_route [0; 2; 1; 3]
                    !! ((i + 1) mod length [0; 2; 1; 3]%Z) = Some b /\
                  cyclic_pairs (square_route [0; 2; 1; 3]) !! i
                    = Some (a, b)) /\
   (length [0; 2; 1; 3]%Z <= 1 ->
    Forall finite_city (square_route [0; 2; 1; 3]) ->
    totalDistance [0; 2; 1; 3]%Z square = Some 0%float)) /\
  totalDistance [2]%Z square = Some 0%float.
Proof.
  split.
  - apply (totalDistance_cyclic_sum [0; 2; 1; 3]%Z square
             (square_route [0; 2; 1; 3])); [by vm_compute | reflexivity].
  - apply (totalDistance_cyclic_sum [2]%Z square (square_route [2]));
      [by vm_compute | reflexivity | simpl; lia |].
    repeat constructor.
Defined.

(** ** Invariants of the loop *)

(** C6.  For [n] cities, [0 < n < 2^31], if the working tour is a permutation
    of [0, n) when the loop is entered, then it is one after any number of
    passes, whatever each pass did (skipped the move, accepted it, or
    rejected it and rolled it back): no entry twice, and every number of
    [0, n) and no other present. *)
Theorem tour_stays_permutation exp cities n s0 tr s :
  0 < n -> (Z.of_nat n < 2147483648)%Z ->
  tour s0 ≡ₚ Z.of_nat <$> seq 0 n ->
  reaches exp cities (size_int (tour s0)) s0 tr s ->
  tour s ≡ₚ Z.of_nat <$> seq 0 n /\
  NoDup (tour s) /\
  forall z, z ∈ tour s <-> (0 <= z < Z.of_nat n)%Z.
Proof.
  intros Hn Hint Hperm Hr.
  assert (length (tour s0) = n) as Hlen
    by (by rewrite Hperm, length_fmap, length_seq).
  assert (size_int (tour s0) = n) as Hsize
    by (rewrite size_int_fits; [done | unfold fits_int; lia]).
  rewrite Hsize in Hr.
  destruct (reaches_invariants exp cities n s0 tr s) as [Hp _];
    [lia | done |].
  split; [by rewrite Hp|]. split.
  - rewrite Hp, Hperm. apply NoDup_fmap; [apply _ | apply NoDup_seq].
  - intros z. rewrite Hp, Hperm. split.
    + intros (k & -> & Hk%elem_of_seq)%list_elem_of_fmap. lia.
    + intros Hz. apply list_elem_of_fmap. exists (Z.to_nat z).
      split; [lia | apply elem_of_seq; lia].
Qed.

(** On the square, after five passes: an improving move, a skipped draw, an
    adjacent draw, a move of equal cost, and a rejected move. *)
Lemma tour_stays_permutation_witness :
  exists tr s,
    first_passes exp_model square 5 [0; 2; 1; 3]%Z square_gen = Some (tr, s) /\
    tour s ≡ₚ Z.of_nat <$> seq 0 4 /\
    NoDup (tour s) /\
    forall z, z ∈ tour s <-> (0 <= z < Z.of_nat 4)%Z.
Proof.
  destruct (first_passes exp_model square 5 [0; 2; 1; 3]%Z square_gen)
    as [[tr s]|] eqn:Hp; [|by vm_compute in Hp].
  exists tr, s. split; [done|].
  destruct (first_passes_reaches _ _ _ _ _ _ _ Hp) as (s0 & Hi & Hr).
  destruct (initial_consistent _ _ _ _ Hi) as (Ht & _).
  rewrite <- Ht in Hr.
  apply (tour_stays_permutation exp_model square 4 s0 tr s);
    [lia | lia | | exact Hr].
  rewrite Ht. simpl. apply perm_skip, perm_swap.
Defined.

(** C10.  When the loop is entered, and after every pass, [currentDistance]
    is the cost [totalDistance] gives the working tour, and [bestDistance] is
    the cost it gives [bestTour]. *)
Theorem cost_consistency exp cities tour0 g s0 tr s :
  0 < size_int tour0 ->
  initial cities tour0 g = Some s0 ->
  reaches exp cities (size_int tour0) s0 tr s ->
  totalDistance (tour s) cities = Some (currentDistance s) /\
  totalDistance (bestTour s) cities = Some (bestDistance s).
Proof.
  intros Hn Hi Hr.
  destruct (initial_consistent _ _ _ _ Hi) as (Ht & _ & Hc & _).
  destruct (reaches_invariants exp cities (size_int tour0) s0 tr s)
    as [_ Hinv]; [|exact Hr|by apply Hinv].
  rewrite Ht. split; [done | apply size_int_le].
Qed.

(** On the square, after the same five passes. *)
Lemma cost_consistency_witness :
  exists tr s,
    first_passes exp_model square 5 [0; 2; 1; 3]%Z square_gen = Some (tr, s) /\
    totalDistance (tour s) square = Some (currentDistance s) /\
    totalDistance (bestTour s) square = Some (bestDistance s).
Proof.
  destruct (first_passes exp_model square 5 [0; 2; 1; 3]%Z square_gen)
    as [[tr s]|] eqn:Hp; [|by vm_compute in Hp].
  exists tr, s. split; [done|].
  destruct (first_passes_reaches _ _ _ _ _ _ _ Hp) as (s0 & Hi & Hr).
  apply (cost_consistency exp_model square [0; 2; 1; 3]%Z square_gen s0 tr s);
    [vm_compute; lia | exact Hi | exact Hr].
Defined.

(** C7.  The tours committed so far are the tour the engine started from
    and the candidates it accepted.  After any number of passes,
    [bestTour] is one of them, [bestDistance] is its cost, and no committed
    tour has a cost below [bestDistance]; with finite coordinates (and a tour
    whose size an [int] holds) no cost is a NaN, and [bestDistance] is at most
    the cost of every committed tour.  From any pass to any later one
    [bestDistance] stays as it is or becomes smaller, and is never greater. *)
Theorem best_tracking exp cities n tour0 g s0 tr s :
  initial cities tour0 g = Some s0 ->
  reaches exp cities n s0 tr s ->
  (bestTour s ∈ committed tour0 tr /\
   totalDistance (bestTour s) cities = Some (bestDistance s) /\
   forall t, t ∈ committed tour0 tr ->
     exists d, totalDistance t cities = Some d /\
               (d <? bestDistance s)%float = false /\
               (fits_int tour0 -> Forall finite_city cities ->
                (bestDistance s <=? d)%float = true)) /\
  (forall tr' s', reaches exp cities n s tr' s' ->
     (bestDistance s' = bestDistance s \/
      (bestDistance s' <? bestDistance s)%float = true) /\
     (bestDistance s <? bestDistance s')%float = false).
Proof.
  intros Hi Hr. split.
  - destruct (initial_consistent _ _ _ _ Hi) as (Ht & Hbt & [_ Hc] & _).
    assert (best_is_minimum cities tour0 tr s) as (Hin & Hcost & Hmin).
    { clear Ht. induction Hr as [|tr s e s' _ IH _ Hb].
      - unfold best_is_minimum, committed. simpl. rewrite Hbt.
        split; [apply list_elem_of_here|]. split; [by rewrite <- Hbt|].
        intros t ->%list_elem_of_singleton. exists (bestDistance s0).
        split; [by rewrite <- Hbt | apply ltb_irrefl].
      - by apply (body_best_is_minimum exp cities n tour0 tr s e s' Hb). }
    split; [done|]. split; [done|].
    intros t Ht'. destruct (Hmin t Ht') as (d & Hd & Hge).
    exists d. split; [done|]. split; [done|]. intros Hfit Hfin.
    destruct (reaches_length exp cities n s0 tr s Hr) as [_ Hlen].
    rewrite Ht in Hlen.
    apply leb_of_not_ltb; [| |done].
    + apply (totalDistance_nonneg t cities); [|done..].
      eapply fits_int_length; [symmetry; by apply Hlen | done].
    + apply (totalDistance_nonneg (bestTour s) cities); [|done..].
      eapply fits_int_length; [symmetry; by apply Hlen | done].
  - intros tr' s' Hr'.
    pose proof (reaches_best_decreases exp cities n s tr' s' Hr') as Hd.
    split; [done|].
    destruct Hd as [->|Hlt]; [apply ltb_irrefl | by apply ltb_asym].
Qed.

(** On the square, after the same five passes; the coordinates are finite,
    so [bestDistance] is at most every committed cost. *)
Lemma best_tracking_witness :
  exists tr s,
    first_passes exp_model square 5 [0; 2; 1; 3]%Z square_gen = Some (tr, s) /\
    bestTour s ∈ committed [0; 2; 1; 3]%Z tr /\
    totalDistance (bestTour s) square = Some (bestDistance s) /\
    (forall t, t ∈ committed [0; 2; 1; 3]%Z tr ->
       exists d, totalDistance t square = Some d /\
                 (d <? bestDistance s)%float = false /\
                 (bestDistance s <=? d)%float = true) /\
    (forall tr' s', reaches exp_model square 4 s tr' s' ->
       (bestDistance s' = bestDistance s \/
        (bestDistance s' <? bestDistance s)%float = true) /\
       (bestDistance s <? bestDistance s')%float = false).
Proof.
  destruct (first_passes exp_model square 5 [0; 2; 1; 3]%Z square_gen)
    as [[tr s]|] eqn:Hp; [|by vm_compute in Hp].
  exists tr, s. split; [done|].
  destruct (first_passes_reaches _ _ _ _ _ _ _ Hp) as (s0 & Hi & Hr).
  destruct (best_tracking exp_model square 4 [0; 2; 1; 3]%Z square_gen
              s0 tr s Hi Hr) as [(Hin & Hcost & Hmin) Hlater].
  split; [done|]. split; [done|]. split; [|done].
  intros t Ht. destruct (Hmin t Ht) as (d & Hd & Hlt & Hle).
  exists d. split; [done|]. split; [done|].
  apply Hle; [by vm_compute | repeat constructor].
Defined.

(** ** The result *)

(** C8.  Whenever the function returns, the loop was left in a state [s]
    whose temperature is not above the floor, which happens after the
    207223rd cooling, and the tour returned is [bestTour] of that state,
    whatever its working tour is; its cost is [bestDistance], and no tour
    committed during the run is cheaper.  The result does not depend on the
    fuel: any fuel that covers the passes of the run gives it. *)
Theorem returns_best_tour exp cities fuel tour0 g t :
  simulatedAnnealing exp cities fuel tour0 g = Finished t ->
  exists s0 tr s,
    initial cities tour0 g = Some s0 /\
    reaches exp cities (size_int tour0) s0 tr s /\
    running s = false /\
    coolings tr = 207223%N /\
    t = bestTour s /\
    totalDistance t cities = Some (bestDistance s) /\
    (forall t', t' ∈ committed tour0 tr ->
       exists d, totalDistance t' cities = Some d /\
                 (d <? bestDistance s)%float = false) /\
    (forall fuel', length tr <= fuel' ->
       simulatedAnnealing exp cities fuel' tour0 g = Finished t).
Proof.
  unfold simulatedAnnealing at 1.
  destruct (size_int tour0 =? 0) eqn:Hn; [done|].
  destruct (initial cities tour0 g) as [s0|] eqn:Hi; [|done].
  destruct (loop exp cities fuel (size_int tour0) s0) as [s| |] eqn:Hl;
    [|done..].
  intros [= <-].
  destruct (loop_Finished exp cities _ _ _ _ Hl) as (tr & Hr & Hstop).
  destruct (initial_consistent _ _ _ _ Hi) as (Ht & Hbt & [_ Hc] & HT & _).
  assert (coolings tr = 207223%N) as Hcool
    by (by apply (reaches_coolings exp cities _ s0 tr s HT Hr)).
  exists s0, tr, s. split; [done|]. split; [done|]. split; [done|].
  split; [done|]. split; [done|].
  assert (best_is_minimum cities tour0 tr s) as (_ & Hcost & Hmin).
  { clear Hl Hstop Hcool. induction Hr as [|tr s e s' _ IH _ Hb].
    - unfold best_is_minimum, committed. simpl. rewrite Hbt.
      split; [apply list_elem_of_here|]. split; [by rewrite <- Hbt|].
      intros t ->%list_elem_of_singleton. exists (bestDistance s0).
      split; [by rewrite <- Hbt | apply ltb_irrefl].
    - by apply (body_best_is_minimum exp cities _ tour0 tr s e s' Hb). }
  split; [done|]. split; [done|].
  intros fuel' Hfuel.
  apply (simulatedAnnealing_returns exp cities fuel' tour0 g s0 tr s);
    try done.
  apply Nat.eqb_neq in Hn. lia.
Qed.

(** On the square, for a complete run: it returns [0; 1; 2; 3] while the
    loop is left with the working tour [2; 1; 0; 3]. *)
Lemma returns_best_tour_witness :
  exists t,
    simulatedAnnealing exp_model square (N.to_nat 300000)
                       [0; 2; 1; 3]%Z square_gen = Finished t /\
    t = [0; 1; 2; 3]%Z /\
    on_exit exp_model square (N.to_nat 300000) [0; 2; 1; 3]%Z square_gen
      = Some ([2; 1; 0; 3]%Z, t) /\
    exists s0 tr s,
      initial square [0; 2; 1; 3]%Z square_gen = Some s0 /\
      reaches exp_model square (size_int [0; 2; 1; 3]%Z) s0 tr s /\
      running s = false /\
      coolings tr = 207223%N /\
      t = bestTour s /\
      totalDistance t square = Some (bestDistance s) /\
      (forall t', t' ∈ committed [0; 2; 1; 3]%Z tr ->
         exists d, totalDistance t' square = Some d /\
                   (d <? bestDistance s)%float = false) /\
      (forall fuel', length tr <= fuel' ->
         simulatedAnnealing exp_model square fuel' [0; 2; 1; 3]%Z square_gen
           = Finished t).
Proof.
  pose proof (on_exit_returns _ _ _ _ _ _ _ square_on_exit) as H.
  exists [0; 1; 2; 3]%Z. split; [exact H|]. split; [done|].
  split; [exact square_on_exit|].
  exact (returns_best_tour exp_model square (N.to_nat 300000)
           [0; 2; 1; 3]%Z square_gen [0; 1; 2; 3]%Z H).
Defined.

(** ** Fewer than two cities *)

(** C2, at the inputs on which the code departs from it.  On a tour of one
    city the function does not return, whatever the fuel: every pass draws
    position 0 twice and skips the cooling with the move, so the temperature
    stays at 10000.  On the empty tour the distribution over [0, -1] is
    constructed, which the library leaves undefined. *)
Theorem degenerate_input_never_returns exp cities fuel g :
  simulatedAnnealing exp cities fuel [] g = Undefined /\
  forall z,
    simulatedAnnealing exp cities fuel [z] g =
      match at_int cities z with
      | Some _ => OutOfFuel
      | None => Undefined
      end.
Proof.
  split; [done|]. intros z.
  unfold simulatedAnnealing, initial, totalDistance.
  change (size_int [z]) with 1. simpl. unfold add_edge. simpl.
  destruct (at_int cities z) as [c|]; [simpl|done].
  by rewrite loop_single.
Qed.

(** * Further properties of the code *)

(** ** The cost model *)

(** X1.  [euclideanDistance] is symmetric: for all coordinates, finite or
    not, the distance from [a] to [b] is the same binary64 value as the
    distance from [b] to [a]. *)
Theorem euclideanDistance_symmetric (a b : City) :
  euclideanDistance a b = euclideanDistance b a.
Proof.
  unfold euclideanDistance.
  by rewrite (sub_square_swap (x a)), (sub_square_swap (y a)).
Qed.

(** X2.  Between cities with finite coordinates [euclideanDistance] is never
    a NaN and never below zero, and from a city to itself it is zero. *)
Theorem euclideanDistance_finite (a b : City) :
  finite_city a -> finite_city b ->
  (0 <=? euclideanDistance a b)%float = true /\
  (euclideanDistance a b <? 0)%float = false /\
  euclideanDistance a a = 0%float.
Proof.
  intros Ha Hb.
  pose proof (euclideanDistance_nonneg a b Ha Hb) as H.
  split; [done|]. split; [by apply leb_zero_ltb|].
  by apply euclideanDistance_diag.
Qed.

Lemma euclideanDistance_finite_witness :
  let a := {| index := 1; x := 0; y := 0 |} in
  let b := {| index := 3; x := 1; y := 1 |} in
  (0 <=? euclideanDistance a b)%float = true /\
  (euclideanDistance a b <? 0)%float = false /\
  euclideanDistance a a = 0%float.
Proof.
  intros a b. apply (euclideanDistance_finite a b); by split.
Defined.

(** X3.  For a tour whose size an [int] holds, [totalDistance] reads inside
    [cities] exactly when every entry of the tour is a position of
    [cities]; with any other entry it reads outside the vector.  On the
    empty tour it is [0.0]. *)
Theorem totalDistance_defined (tour : list Z) (cities : list City) :
  fits_int tour ->
  (is_Some (totalDistance tour cities) <->
   Forall (fun z => (0 <= z < Z.of_nat (length cities))%Z) tour) /\
  totalDistance [] cities = Some 0%float.
Proof.
  intros Hfit. split; [|done].
  rewrite totalDistance_is_Some_iff by done.
  apply Forall_iff. intros z. apply at_int_is_Some.
Qed.

Lemma totalDistance_defined_witness :
  (is_Some (totalDistance [0; 2; 1; 3]%Z square) <->
   Forall (fun z => (0 <= z < Z.of_nat (length square))%Z) [0; 2; 1; 3]%Z) /\
  totalDistance [] square = Some 0%float.
Proof.
  apply (totalDistance_defined [0; 2; 1; 3]%Z square).
  unfold fits_int. simpl. lia.
Defined.

(** X4.  With finite coordinates, the cost [totalDistance] returns is never
    a NaN and never below zero. *)
Theorem totalDistance_sign (tour : list Z) (cities : list City) (d : double) :
  fits_int tour -> Forall finite_city cities ->
  totalDistance tour cities = Some d ->
  (0 <=? d)%float = true /\ (d <? 0)%float = false.
Proof.
  intros Hfit Hfin Hd.
  pose proof (totalDistance_nonneg tour cities d Hfit Hfin Hd) as H.
  split; [done | by apply leb_zero_ltb].
Qed.

Lemma totalDistance_sign_witness :
  exists d, totalDistance [0; 2; 1; 3]%Z square = Some d /\
            (0 <=? d)%float = true /\ (d <? 0)%float = false.
Proof.
  destruct (totalDistance [0; 2; 1; 3]%Z square) as [d|] eqn:Hd;
    [|by vm_compute in Hd].
  exists d. split; [done|].
  apply (totalDistance_sign [0; 2; 1; 3]%Z square d);
    [unfold fits_int; simpl; lia | repeat constructor | exact Hd].
Defined.

(** ** The engine *)

(** X5.  Started on a tour that is not empty, whose size an [int] holds and
    whose entries are positions of [cities], [simulatedAnnealing] has no
    undefined behaviour: no read outside a vector and no distribution over
    an empty range, whatever the generator delivers. *)
Theorem simulatedAnnealing_defined exp cities fuel (tour0 : list Z) g :
  tour0 <> [] -> fits_int tour0 ->
  Forall (fun z => (0 <= z < Z.of_nat (length cities))%Z) tour0 ->
  simulatedAnnealing exp cities fuel tour0 g <> Undefined.
Proof.
  intros Hne Hfit Hin. apply simulatedAnnealing_not_Undefined; [done..|].
  apply totalDistance_is_Some_iff; [done|].
  eapply Forall_impl; [exact Hin|]. intros z. apply at_int_is_Some.
Qed.

Lemma simulatedAnnealing_defined_witness :
  simulatedAnnealing exp_model square 5 [0; 2; 1; 3]%Z square_gen <> Undefined.
Proof.
  apply (simulatedAnnealing_defined exp_model square 5 [0; 2; 1; 3]%Z);
    [done | unfold fits_int; simpl; lia |].
  repeat constructor; simpl; lia.
Defined.

(** X6.  Whenever [simulatedAnnealing] returns, the tour it returns is a
    rearrangement of the tour it was given: the same entries, each as often
    as before, and the same size. *)
Theorem result_is_rearrangement exp cities fuel (tour0 : list Z) g t :
  simulatedAnnealing exp cities fuel tour0 g = Finished t ->
  t ≡ₚ tour0 /\ length t = length tour0.
Proof.
  intros (s0 & tr & s & Hn & Hi & Hr & _ & ->)%simulatedAnnealing_Finished.
  destruct (initial_consistent _ _ _ _ Hi) as (Ht & Hbt & _).
  assert (bestTour s ≡ₚ tour0) as Hp.
  { rewrite <- Ht.
    apply (reaches_bestTour_Permutation exp cities (size_int tour0) s0 tr s);
      [by rewrite Ht | by rewrite Hbt, Ht | done]. }
  split; [done | by rewrite Hp].
Qed.

Lemma result_is_rearrangement_witness :
  exists t,
    simulatedAnnealing exp_model square (N.to_nat 300000)
                       [0; 2; 1; 3]%Z square_gen = Finished t /\
    t ≡ₚ [0; 2; 1; 3]%Z /\ length t = 4.
Proof.
  pose proof (on_exit_returns _ _ _ _ _ _ _ square_on_exit) as H.
  exists [0; 1; 2; 3]%Z. split; [exact H|].
  exact (result_is_rearrangement exp_model square (N.to_nat 300000)
           [0; 2; 1; 3]%Z square_gen [0; 1; 2; 3]%Z H).
Defined.

(** X7.  Whenever [simulatedAnnealing] returns, the cost of the tour it
    returns is the cost of the tour it was given or smaller; it is never
    greater, and with finite coordinates it is at most that cost. *)
Theorem result_not_worse exp cities fuel (tour0 : list Z) g t :
  simulatedAnnealing exp cities fuel tour0 g = Finished t ->
  exists d0 d,
    totalDistance tour0 cities = Some d0 /\
    totalDistance t cities = Some d /\
    (d = d0 \/ (d <? d0)%float = true) /\
    (d0 <? d)%float = false /\
    (fits_int tour0 -> Forall finite_city cities ->
     (d <=? d0)%float = true).
Proof.
  intros Hf.
  destruct (simulatedAnnealing_cost exp cities fuel tour0 g t Hf)
    as (d0 & d & Hd0 & Hd & Hle).
  apply simulatedAnnealing_Finished in Hf
    as (s0 & tr & s & Hn & Hi & Hr & _ & ->).
  destruct (initial_consistent _ _ _ _ Hi) as (Ht & Hbt & _).
  assert (length (bestTour s) = length tour0) as Hlen.
  { apply Permutation_length. rewrite <- Ht.
    apply (reaches_bestTour_Permutation exp cities (size_int tour0) s0 tr s);
      [by rewrite Ht | by rewrite Hbt, Ht | done]. }
  exists d0, d. split; [done|]. split; [done|]. split; [done|].
  assert ((d0 <? d)%float = false) as Hnlt
    by (destruct Hle as [->|Hlt]; [apply ltb_irrefl | by apply ltb_asym]).
  split; [done|]. intros Hfit Hfin.
  apply leb_of_not_ltb; [| |done].
  - by apply (totalDistance_nonneg tour0 cities).
  - apply (totalDistance_nonneg (bestTour s) cities); [|done..].
    eapply fits_int_length; [symmetry; exact Hlen | done].
Qed.

Lemma result_not_worse_witness :
  exists d0 d,
    totalDistance [0; 2; 1; 3]%Z square = Some d0 /\
    totalDistance [0; 1; 2; 3]%Z square = Some d /\
    (d = d0 \/ (d <? d0)%float = true) /\
    (d0 <? d)%float = false /\
    (d <=? d0)%float = true.
Proof.
  pose proof (on_exit_returns _ _ _ _ _ _ _ square_on_exit) as H.
  destruct (result_not_worse exp_model square (N.to_nat 300000)
              [0; 2; 1; 3]%Z square_gen [0; 1; 2; 3]%Z H)
    as (d0 & d & Hd0 & Hd & Hle & Hnlt & Hfin).
  clear H. exists d0, d.
  split; [exact Hd0|]. split; [exact Hd|]. split; [exact Hle|].
  split; [exact Hnlt|].
  apply Hfin; [unfold fits_int; simpl; lia | repeat constructor].
Defined.

(** X8.  The last position of the tour is never written: the ranges the
    engine reverses end before the larger drawn position, which is at most
    the last one.  In every state of a run the working tour and the best
    tour end with the entry the given tour ends with, and so does the tour
    returned. *)
Theorem last_position_fixed exp cities (tour0 : list Z) g :
  tour0 <> [] -> fits_int tour0 ->
  (forall s0 tr s,
     initial cities tour0 g = Some s0 ->
     reaches exp cities (size_int tour0) s0 tr s ->
     last (tour s) = last tour0 /\ last (bestTour s) = last tour0) /\
  (forall fuel t,
     simulatedAnnealing exp cities fuel tour0 g = Finished t ->
     last t = last tour0).
Proof.
  intros Hne Hfit.
  assert (forall s0 tr s,
     initial cities tour0 g = Some s0 ->
     reaches exp cities (size_int tour0) s0 tr s ->
     last (tour s) = last tour0 /\ last (bestTour s) = last tour0) as Hrun.
  { intros s0 tr s Hi Hr.
    destruct (initial_consistent _ _ _ _ Hi) as (Ht & Hbt & _).
    assert (0 < size_int tour0 <= length (tour s0)) as Hn
      by (rewrite Ht; by apply size_int_pos).
    destruct (reaches_fixed_positions exp cities _ s0 tr s
                (size_int tour0 - 1) Hn (Nat.le_refl _) Hr) as [Hk Hbk].
    destruct (reaches_length exp cities _ s0 tr s Hr) as [Hlen _].
    pose proof (reaches_bestTour_Permutation exp cities _ s0 tr s Hn) as Hp.
    rewrite Hbt, Ht in Hp. specialize (Hp (reflexivity _) Hr).
    apply Permutation_length in Hp.
    rewrite Ht in Hk, Hbk, Hlen. rewrite Hbt in Hbk.
    rewrite (size_int_fits _ Hfit) in Hk, Hbk.
    rewrite !last_lookup, Hlen, Hp.
    replace (pred (length tour0)) with (length tour0 - 1) by lia.
    split; [done | by apply Hbk]. }
  split; [done|].
  intros fuel t
    (s0 & tr & s & _ & Hi & Hr & _ & ->)%simulatedAnnealing_Finished.
  by apply (Hrun s0 tr s).
Qed.

Lemma last_position_fixed_witness :
  exists tr s,
    first_passes exp_model square 5 [0; 2; 1; 3]%Z square_gen = Some (tr, s) /\
    last (tour s) = Some 3%Z /\ last (bestTour s) = Some 3%Z.
Proof.
  destruct (first_passes exp_model square 5 [0; 2; 1; 3]%Z square_gen)
    as [[tr s]|] eqn:Hp; [|by vm_compute in Hp].
  exists tr, s. split; [done|].
  destruct (first_passes_reaches _ _ _ _ _ _ _ Hp) as (s0 & Hi & Hr).
  destruct (last_position_fixed exp_model square [0; 2; 1; 3]%Z square_gen)
    as [Hrun _]; [done | unfold fits_int; simpl; lia |].
  exact (Hrun s0 tr s Hi Hr).
Defined.

(** X9.  On a tour of two cities every range the engine reverses holds one
    element: the working tour and the best tour stay the given tour through
    every pass, and the tour returned is the given one. *)
Theorem two_cities_unchanged exp cities (tour0 : list Z) g :
  length tour0 = 2 ->
  (forall s0 tr s,
     initial cities tour0 g = Some s0 ->
     reaches exp cities (size_int tour0) s0 tr s ->
     tour s = tour0 /\ bestTour s = tour0) /\
  (forall fuel t,
     simulatedAnnealing exp cities fuel tour0 g = Finished t -> t = tour0).
Proof.
  intros Hlen.
  assert (size_int tour0 = 2) as Hsize
    by (rewrite size_int_fits; [done | unfold fits_int; lia]).
  assert (forall s0 tr s,
     initial cities tour0 g = Some s0 ->
     reaches exp cities (size_int tour0) s0 tr s ->
     tour s = tour0 /\ bestTour s = tour0) as Hrun.
  { intros s0 tr s Hi Hr.
    destruct (initial_consistent _ _ _ _ Hi) as (Ht & Hbt & _).
    destruct (reaches_two exp cities _ s0 tr s Hsize Hr) as [H1 H2].
    rewrite Ht in H1, H2. split; [done | by apply H2]. }
  split; [done|].
  intros fuel t
    (s0 & tr & s & _ & Hi & Hr & _ & ->)%simulatedAnnealing_Finished.
  by apply (Hrun s0 tr s).
Qed.

Lemma two_cities_unchanged_witness :
  exists tr s,
    first_passes exp_model square 3 [3; 1]%Z square_gen = Some (tr, s) /\
    tour s = [3; 1]%Z /\ bestTour s = [3; 1]%Z.
Proof.
  destruct (first_passes exp_model square 3 [3; 1]%Z square_gen)
    as [[tr s]|] eqn:Hp; [|by vm_compute in Hp].
  exists tr, s. split; [done|].
  destruct (first_passes_reaches _ _ _ _ _ _ _ Hp) as (s0 & Hi & Hr).
  destruct (two_cities_unchanged exp_model square [3; 1]%Z square_gen)
    as [Hrun _]; [done|].
  exact (Hrun s0 tr s Hi Hr).
Defined.

(** X10.  The temperature depends only on the number of candidates evaluated
    so far: after [k] of them it is 10000 multiplied [k] times by 0.9999,
    whatever was drawn, accepted or rejected.  No run evaluates more than
    207223 candidates, and the loop condition fails exactly when that many
    have been evaluated. *)
Theorem cooling_schedule exp cities (tour0 : list Z) g s0 tr s :
  initial cities tour0 g = Some s0 ->
  reaches exp cities (size_int tour0) s0 tr s ->
  T s = cool (coolings tr) initialTemperature /\
  (coolings tr <= 207223)%N /\
  (running s = false <-> coolings tr = 207223%N) /\
  N.of_nat (length tr) = (coolings tr + redraws tr)%N.
Proof.
  intros Hi Hr.
  destruct (initial_consistent _ _ _ _ Hi) as (_ & _ & _ & HT & _).
  split; [by rewrite (reaches_temperature exp cities _ s0 tr s Hr), HT|].
  destruct (reaches_coolings exp cities _ s0 tr s HT Hr) as [Hle Hiff].
  split; [done|]. split; [done | apply length_coolings_redraws].
Qed.

Lemma cooling_schedule_witness :
  exists tr s,
    first_passes exp_model square 5 [0; 2; 1; 3]%Z square_gen = Some (tr, s) /\
    T s = cool (coolings tr) initialTemperature /\
    (coolings tr <= 207223)%N /\
    (running s = false <-> coolings tr = 207223%N) /\
    N.of_nat (length tr) = (coolings tr + redraws tr)%N.
Proof.
  destruct (first_passes exp_model square 5 [0; 2; 1; 3]%Z square_gen)
    as [[tr s]|] eqn:Hp; [|by vm_compute in Hp].
  exists tr, s. split; [done|].
  destruct (first_passes_reaches _ _ _ _ _ _ _ Hp) as (s0 & Hi & Hr).
  exact (cooling_schedule exp_model square [0; 2; 1; 3]%Z square_gen
           s0 tr s Hi Hr).
Defined.

(** X11.  Termination up to repeated draws.  Started on a tour that is not
    empty, whose size an [int] holds and whose entries are positions of
    [cities], the function returns within any number of passes unless too
    many of them drew the same position twice: if it has not returned after
    [fuel] passes, more than [fuel - 207223] of these passes were such
    draws. *)
Theorem returns_unless_redraws exp cities fuel (tour0 : list Z) g :
  tour0 <> [] -> fits_int tour0 ->
  Forall (fun z => (0 <= z < Z.of_nat (length cities))%Z) tour0 ->
  (exists t, simulatedAnnealing exp cities fuel tour0 g = Finished t) \/
  (simulatedAnnealing exp cities fuel tour0 g = OutOfFuel /\
   exists s0 tr s,
     initial cities tour0 g = Some s0 /\
     reaches exp cities (size_int tour0) s0 tr s /\
     length tr = fuel /\
     (N.of_nat fuel < 207223 + redraws tr)%N).
Proof.
  intros Hne Hfit Hin.
  assert (simulatedAnnealing exp cities fuel tour0 g <> Undefined) as Hdef.
  { apply simulatedAnnealing_not_Undefined; [done..|].
    apply totalDistance_is_Some_iff; [done|].
    eapply Forall_impl; [exact Hin|]. intros z. apply at_int_is_Some. }
  destruct (simulatedAnnealing exp cities fuel tour0 g) as [t| |] eqn:Hs;
    [left; by exists t | done |].
  right. split; [done|].
  unfold simulatedAnnealing in Hs.
  destruct (size_int tour0 =? 0); [done|].
  destruct (initial cities tour0 g) as [s0|] eqn:Hi; [|done].
  destruct (loop exp cities fuel (size_int tour0) s0) as [s| |] eqn:Hl;
    try done.
  destruct (loop_OutOfFuel exp cities _ _ _ Hl) as (tr & s & Hr & Hlen & Hrun).
  exists s0, tr, s. split; [done|]. split; [done|]. split; [done|].
  destruct (initial_consistent _ _ _ _ Hi) as (_ & _ & _ & HT & _).
  destruct (reaches_coolings exp cities _ s0 tr s HT Hr) as [Hle Hiff].
  assert (coolings tr <> 207223%N) as Hne'
    by (intros Heq%Hiff; congruence).
  pose proof (length_coolings_redraws tr). subst fuel. lia.
Qed.

Lemma returns_unless_redraws_witness :
  (exists t, simulatedAnnealing exp_model square 5 [0; 2; 1; 3]%Z square_gen
             = Finished t) \/
  (simulatedAnnealing exp_model square 5 [0; 2; 1; 3]%Z square_gen
     = OutOfFuel /\
   exists s0 tr s,
     initial square [0; 2; 1; 3]%Z square_gen = Some s0 /\
     reaches exp_model square (size_int [0; 2; 1; 3]%Z) s0 tr s /\
     length tr = 5 /\
     (N.of_nat 5 < 207223 + redraws tr)%N).
Proof.
  apply (returns_unless_redraws exp_model square 5 [0; 2; 1; 3]%Z);
    [done | unfold fits_int; simpl; lia |].
  repeat constructor; simpl; lia.
Defined.

(** ** The readers *)

(** X12.  What [parseTSPFile] returns, in closed form.  A file that cannot
    be opened gives no city.  Otherwise the lines that count are those
    after the first line holding NODE_COORD_SECTION and before the first
    line that holds EOF without holding NODE_COORD_SECTION; of these, later
    NODE_COORD_SECTION lines are skipped, and the result is the cities
    extracted from the remaining lines, in the order of the file, the lines
    from which no city can be extracted being dropped. *)
Theorem parseTSPFile_closed_form read_city (file : option (list string)) :
  parseTSPFile read_city file =
    match file with
    | None => []
    | Some lines =>
        omap read_city
          (filter (fun line => ¬ section_line line)
             (after section_line (before end_line lines)))
    end.
Proof.
  destruct file as [lines|]; [|done].
  unfold parseTSPFile. by rewrite parse_lines_spec.
Qed.

(** X13.  Nothing is read beyond a line that holds EOF (and not
    NODE_COORD_SECTION), wherever it stands: the file gives the cities that
    its lines before that line give.  If no line before it holds
    NODE_COORD_SECTION, as when a line of the header holds the letters EOF,
    the file gives no city. *)
Theorem parseTSPFile_stops_at_EOF read_city (pre post : list string) line :
  end_line line = true ->
  parseTSPFile read_city (Some (pre ++ line :: post))
    = parseTSPFile read_city (Some pre) /\
  (Forall (fun l => section_line l = false) pre ->
   parseTSPFile read_city (Some (pre ++ line :: post)) = []).
Proof.
  intros Hend. unfold parseTSPFile. rewrite !parse_lines_spec.
  rewrite before_app_stop by done. split; [done|].
  intros Hpre. rewrite after_none; [done|].
  apply Forall_forall. intros l Hl%before_sublist.
  by apply (proj1 (Forall_forall _ _) Hpre).
Qed.

Lemma parseTSPFile_stops_at_EOF_witness :
  parseTSPFile square_read_city (Some square_file) = square /\
  parseTSPFile square_read_city
    (Some (["COMMENT : EOF"; "NODE_COORD_SECTION"]%string
           ++ "EOF"%string :: ["1 0 0"]%string)) = [].
Proof.
  split.
  - destruct (parseTSPFile_stops_at_EOF square_read_city
                (take 9 square_file) (drop 10 square_file) "EOF") as [H _];
      [done|].
    change (Some (take 9 square_file ++ "EOF"%string :: drop 10 square_file))
      with (Some square_file) in H.
    rewrite H. reflexivity.
  - destruct (parseTSPFile_stops_at_EOF square_read_city
                [] ["NODE_COORD_SECTION"; "EOF"; "1 0 0"]%string
                "COMMENT : EOF") as [_ H]; [done|].
    apply H. constructor.
Defined.

(** X14.  [readSolutions] keeps, for every name, the value of the last line
    of the file that gives a value to that name once the name is cut at its
    first dot; earlier lines for the same name are overwritten, and a file
    that cannot be opened gives the empty map. *)
Theorem readSolutions_last_wins read_solution
    (file : option (list string)) (name : string) :
  readSolutions read_solution file !! name =
    match file with
    | None => None
    | Some lines => last (answers read_solution name lines)
    end.
Proof.
  destruct file as [lines|]; [apply readSolutions_lookup_last | done].
Qed.

(** X15.  No key of the map [readSolutions] returns holds a dot: every name
    read is cut at its first dot, not at its last.  A look-up under a name
    that holds a dot therefore finds nothing, whatever the file holds, and
    every value found comes from a line whose name, cut at its first dot,
    is the key. *)
Theorem readSolutions_keys read_solution
    (file : option (list string)) (name : string) (v : double) :
  readSolutions read_solution file !! name = Some v ->
  dotless name /\
  exists lines line filename,
    file = Some lines /\ line ∈ lines /\
    read_solution line = Some (filename, v) /\
    strip_extension filename = name.
Proof. apply readSolutions_lookup_Some. Qed.

Lemma readSolutions_keys_witness :
  readSolutions read_square_solution (Some solutions_file) !! "square"%string
    = Some 4%float /\
  dotless "square" /\
  exists lines line filename,
    Some solutions_file = Some lines /\ line ∈ lines /\
    read_square_solution line = Some (filename, 4%float) /\
    strip_extension filename = "square"%string.
Proof.
  assert (readSolutions read_square_solution (Some solutions_file)
            !! "square"%string = Some 4%float) as H
    by (rewrite readSolutions_lookup_last; reflexivity).
  split; [exact H|].
  exact (readSolutions_keys read_square_solution (Some solutions_file)
           "square" 4%float H).
Defined.

(** ** The program *)



(** X17.  When [main] returns 0, the labels it prints are the labels of the
    cities of the selected file, each city once, in some order; the final
    distance it prints is never greater than the initial distance, and with
    finite coordinates it is at most the initial distance; and if the stem
    of the selected file name holds a dot, as for a name with two
    extensions, no correct answer is printed, whatever the solutions file
    holds. *)
Theorem main_prints exp read_city read_solution shuffle stem open
    fuel (tspFiles : list string) (choice : N) solutions g (p : printed) :
  (forall l, shuffle l ≡ₚ l) ->
  (forall file, file ∈ tspFiles ->
     fits_int (parseTSPFile read_city (open file))) ->
  main exp read_city read_solution shuffle stem open
       fuel tspFiles choice solutions g = Finished (Return0 p) ->
  exists selectedFile,
    tspFiles !! (N.to_nat choice - 1) = Some selectedFile /\
    let cities := parseTSPFile read_city (open selectedFile) in
    printed_tour p ≡ₚ index <$> cities /\
    (initial_distance p <? final_distance p)%float = false /\
    (Forall finite_city cities ->
     (final_distance p <=? initial_distance p)%float = true) /\
    (¬ dotless (stem selectedFile) -> correct_answer p = None).
Proof.
  intros Hsh Hfit Hmain.
  destruct (main_cases exp read_city read_solution shuffle stem open
              fuel tspFiles choice solutions g)
    as [H1|(f & Hc & Hl)]; [congruence|].
  rewrite (main_selected _ _ _ _ _ _ _ _ _ _ _ f Hc Hl) in Hmain.
  exists f. split; [done|]. intros cities.
  assert (fits_int cities) as Hfc
    by (apply Hfit; by eapply list_elem_of_lookup_2).
  destruct (decide (cities = [])) as [He|Hne];
    [by rewrite report_empty in Hmain|].
  destruct (report_cases exp read_city read_solution shuffle stem open
              Hsh fuel f solutions g Hne Hfc)
    as [Ho|(d0 & t & d & ids & Hd0 & Hs & Hd & Hids & Hr)];
    [congruence|].
  fold cities in Hd0, Hs, Hd, Hids.
  rewrite Hr in Hmain. injection Hmain as <-. simpl.
  pose proof (simulatedAnnealing_Permutation _ _ _ _ _ _ Hs) as Hp.
  destruct (shuffled_positions shuffle Hsh cities Hne Hfc)
    as (_ & Hfit0 & _).
  split; [|split; [|split]].
  - rewrite (labels_Some _ _ _ Hids), Hp, Hsh.
    by rewrite labels_positions.
  - destruct (simulatedAnnealing_cost exp cities fuel _ g t Hs)
      as (d0' & d' & Hd0' & Hd' & Hle).
    rewrite Hd0 in Hd0'. rewrite Hd in Hd'. simplify_eq.
    destruct Hle as [->|Hlt]; [apply ltb_irrefl | by apply ltb_asym].
  - intros Hfin.
    destruct (simulatedAnnealing_cost exp cities fuel _ g t Hs)
      as (d0' & d' & Hd0' & Hd' & Hle).
    rewrite Hd0 in Hd0'. rewrite Hd in Hd'. simplify_eq.
    apply leb_of_not_ltb.
    + by apply (totalDistance_nonneg _ cities d0' Hfit0).
    + apply (totalDistance_nonneg t cities); [|done..].
      eapply fits_int_length; [|exact Hfit0]. by rewrite Hp.
    + destruct Hle as [->|Hlt]; [apply ltb_irrefl | by apply ltb_asym].
  - intros Hdot.
    destruct (readSolutions read_solution solutions !! stem f) as [v|] eqn:Hv;
      [|done].
    by apply readSolutions_lookup_Some in Hv as [Hv _].
Qed.

Lemma main_prints_witness :
  exists p,
    main exp_model square_read_city read_square_solution swap_middle
         strip_extension open_square
         (N.to_nat 300000) ["square.tsp"; "point.tsp"]%string 1
         (Some solutions_file) square_gen = Finished (Return0 p) /\
    printed_tour p = [1; 2; 3; 4]%Z /\
    correct_answer p = Some 4%float /\
    exists selectedFile,
      ["square.tsp"; "point.tsp"]%string !! (N.to_nat 1 - 1)
        = Some selectedFile /\
      let cities :=
        parseTSPFile square_read_city (open_square selectedFile) in
      printed_tour p ≡ₚ index <$> cities /\
      (initial_distance p <? final_distance p)%float = false /\
      (Forall finite_city cities ->
       (final_distance p <=? initial_distance p)%float = true) /\
      (¬ dotless (strip_extension selectedFile) -> correct_answer p = None).
Proof.
  pose proof (on_exit_returns _ _ _ _ _ _ _ square_on_exit) as H.
  destruct (totalDistance [0; 2; 1; 3]%Z square) as [d0|] eqn:Hd0;
    [|by vm_compute in Hd0].
  destruct (totalDistance [0; 1; 2; 3]%Z square) as [d|] eqn:Hd;
    [|by vm_compute in Hd].
  pose proof (report_returns exp_model square_read_city read_square_solution
                swap_middle strip_extension open_square
                (N.to_nat 300000) "square.tsp" (Some solutions_file)
                square_gen square [0; 2; 1; 3]%Z d0 [0; 1; 2; 3]%Z d
                [1; 2; 3; 4]%Z eq_refl ltac:(discriminate) eq_refl
                Hd0 H Hd eq_refl) as Hr.
  rewrite <- (main_selected exp_model square_read_city read_square_solution
                swap_middle strip_extension open_square
                (N.to_nat 300000) ["square.tsp"; "point.tsp"]%string 1
                (Some solutions_file) square_gen "square.tsp"
                ltac:(lia) eq_refl) in Hr.
  clear H.
  eexists. split; [exact Hr|]. split; [reflexivity|].
  split; [rewrite readSolutions_lookup_last; reflexivity|].
  exact (main_prints exp_model square_read_city read_square_solution
           swap_middle strip_extension open_square
           (N.to_nat 300000) ["square.tsp"; "point.tsp"]%string 1
           (Some solutions_file) square_gen _
           swap_middle_Permutation (fun file _ => open_square_fits file) Hr).
Defined.

(** X18.  A file that gives exactly one city passes the check for an empty
    file, and [main] then never returns: for every number of passes the
    engine is still in its loop. *)
Theorem main_one_city_never_returns exp read_city read_solution shuffle stem
    open (tspFiles : list string) (choice : N) solutions g selectedFile c :
  (forall l, shuffle l ≡ₚ l) ->
  (1 <= choice)%N ->
  tspFiles !! (N.to_nat choice - 1) = Some selectedFile ->
  parseTSPFile read_city (open selectedFile) = [c] ->
  forall fuel,
    main exp read_city read_solution shuffle stem open
         fuel tspFiles choice solutions g = OutOfFuel.
Proof.
  intros Hsh Hc Hl Hp fuel.
  rewrite (main_selected _ _ _ _ _ _ _ _ _ _ _ selectedFile Hc Hl).
  by apply report_single with (c := c).
Qed.

Lemma main_one_city_never_returns_witness :
  main exp_model square_read_city read_square_solution swap_middle
       strip_extension open_square
       (N.to_nat 300000) ["square.tsp"; "point.tsp"]%string 2
       (Some solutions_file) square_gen = OutOfFuel.
Proof.
  apply (main_one_city_never_returns exp_model square_read_city
           read_square_solution swap_middle strip_extension open_square
           ["square.tsp"; "point.tsp"]%string 2 (Some solutions_file)
           square_gen "point.tsp" {| index := 1; x := 0; y := 0 |});
    [apply swap_middle_Permutation | lia | reflexivity | reflexivity].
Defined.
